(** * Hangman.py: the adversarial hangman engine

    A shallow embedding of [src/Hangman.py] (mask_word, partition,
    max_partition, load_words and the loops of play_hangman) and the
    properties of its specification.

    Modelling conventions.
    - A Python [str] is a [string]; the model covers text whose characters
      are ASCII, so [str.lower], [str.isalpha] and [str.strip] are the ASCII
      restrictions of the Python methods.
    - A Python [set] of strings is the list of its elements in the order the
      set is iterated, without duplicates; [set_add] is [set.add]. Python
      iterates a set in hash order: the positions in such a list are a
      convention of the model, and the properties below read membership,
      size and absence of duplicates off it.
    - The [defaultdict(set)] built by [partition] is an association list in
      insertion order (a Python dict iterates in insertion order).
    - An exception that leaves a function is a [Raise]d [result].
    - [random.choice(seq)] is [seq[i]] for an index [i] below [len(seq)] that
      the random source draws; the model takes the raw draw [r] as an
      argument and uses [i = r mod len(seq)].
    - [print] appends an [Output] event; [input] consumes the next line of a
      list of lines. [play_step] and [play_loop] list the header of lines
      89-95 with the pass that reads the line; the machine of [play_hangman]
      prints it when the prompt is reached, as the program does.
    - The whole of [play_hangman] is a machine that takes one transition per
      line of input; the builtin [int] is a parameter of it. *)

From Stdlib Require Import List String Ascii Bool Arith ZArith Lia Permutation.
Import ListNotations.

Open Scope string_scope.

(** ** Python primitives *)

Module Py.

Inductive exn : Type := ValueError | IndexError.

Inductive result (A : Type) : Type :=
| Ok (a : A)
| Raise (e : exn).

Arguments Ok {A} a.
Arguments Raise {A} e.

(** The one-character string holding [c]: what iterating a [str] yields. *)
Definition chr (c : ascii) : string := String c EmptyString.

(** [list(s)]: the one-character strings of [s], in order. *)
Fixpoint chars (s : string) : list string :=
  match s with
  | EmptyString => []
  | String c s' => chr c :: chars s'
  end.

(** [''.join(parts)] *)
Fixpoint join (parts : list string) : string :=
  match parts with
  | [] => ""
  | p :: ps => p ++ join ps
  end.

(** [c * n] for a one-character string [c]. *)
Fixpoint str_repeat (c : ascii) (n : nat) : string :=
  match n with
  | O => ""
  | S n' => String c (str_repeat c n')
  end.

(** [sub in s] on strings: [sub] occurs in [s] as a substring. *)
Fixpoint str_in (sub s : string) : bool :=
  match s with
  | EmptyString => String.prefix sub ""
  | String _ s' => String.prefix sub s || str_in sub s'
  end.

(** [s.count(c)] for a one-character needle. *)
Fixpoint str_count (c : ascii) (s : string) : nat :=
  match s with
  | EmptyString => 0
  | String d s' => (if Ascii.eqb d c then 1 else 0) + str_count c s'
  end.

(** [x in s] for a set of strings. *)
Definition set_mem (x : string) (s : list string) : bool :=
  existsb (String.eqb x) s.

(** [s.add(x)]; where the new element goes in the enumeration is a
    convention, a Python set has no positions. *)
Definition set_add (x : string) (s : list string) : list string :=
  if set_mem x s then s else (s ++ [x])%list.

(** [set(l)] and set comprehensions: the elements of [l], once each. *)
Definition set_of_list (l : list string) : list string :=
  fold_left (fun s x => set_add x s) l [].

(** ASCII [str.lower]. *)
Definition lower_char (c : ascii) : ascii :=
  let n := nat_of_ascii c in
  if ((65 <=? n) && (n <=? 90))%nat then ascii_of_nat (n + 32) else c.

Fixpoint str_lower (s : string) : string :=
  match s with
  | EmptyString => ""
  | String c s' => String (lower_char c) (str_lower s')
  end.

(** ASCII [str.isalpha]: non-empty and letters only. *)
Definition isalpha_char (c : ascii) : bool :=
  let n := nat_of_ascii c in
  (((65 <=? n) && (n <=? 90)) || ((97 <=? n) && (n <=? 122)))%nat.

Fixpoint all_alpha (s : string) : bool :=
  match s with
  | EmptyString => true
  | String c s' => isalpha_char c && all_alpha s'
  end.

Definition isalpha (s : string) : bool :=
  match s with
  | EmptyString => false
  | _ => all_alpha s
  end.

(** ASCII [str.isspace] on one character, and [str.strip()]. *)
Definition isspace_char (c : ascii) : bool :=
  let n := nat_of_ascii c in
  (((9 <=? n) && (n <=? 13)) || ((28 <=? n) && (n <=? 32)))%nat.

Fixpoint lstrip (s : string) : string :=
  match s with
  | EmptyString => ""
  | String c s' => if isspace_char c then lstrip s' else s
  end.

Fixpoint rstrip (s : string) : string :=
  match s with
  | EmptyString => ""
  | String c s' =>
      match rstrip s' with
      | EmptyString => if isspace_char c then "" else chr c
      | r => String c r
      end
  end.

Definition strip (s : string) : string := rstrip (lstrip s).

(** [max(it)]: [ValueError] on an empty iterable. *)
Definition max (l : list nat) : result nat :=
  match l with
  | [] => Raise ValueError
  | x :: xs => Ok (fold_left Nat.max xs x)
  end.

(** [l.sort(key=key)]: stable, ascending. *)
Fixpoint insert_by {A : Type} (key : A -> nat) (x : A) (l : list A) : list A :=
  match l with
  | [] => [x]
  | y :: l' => if (key x <=? key y)%nat then x :: l else y :: insert_by key x l'
  end.

Fixpoint sort_by {A : Type} (key : A -> nat) (l : list A) : list A :=
  match l with
  | [] => []
  | x :: l' => insert_by key x (sort_by key l')
  end.

(** [random.choice(seq)] under the raw draw [r]: [IndexError] on an empty
    sequence. *)
Definition random_choice {A : Type} (r : nat) (seq : list A) : result A :=
  match nth_error seq (r mod List.length seq) with
  | Some x => Ok x
  | None => Raise IndexError
  end.

End Py.

Import Py.

(** ** Masker, Partitioner, Selector *)

Definition PLACEHOLDER : ascii := "-"%char.

(** [mask_word], lines 21-23. *)
Definition mask_word (word : string) (guessed : list string) : string :=
  join (List.map (fun letter => if set_mem letter guessed then letter else "-")
                 (chars word)).

(** The dict of [partition]: pattern |-> bucket, in insertion order. *)
Definition PartitionMap : Type := list (string * list string).

(** [d[k]] on the [defaultdict(set)], read-only uses: the bucket or the empty
    set. *)
Fixpoint dict_get (d : PartitionMap) (k : string) : list string :=
  match d with
  | [] => []
  | (k', v) :: d' => if String.eqb k' k then v else dict_get d' k
  end.

Fixpoint dict_mem (d : PartitionMap) (k : string) : bool :=
  match d with
  | [] => false
  | (k', _) :: d' => String.eqb k' k || dict_mem d' k
  end.

(** [d[k].add(w)]: the bucket is created on first use. *)
Fixpoint dict_add (d : PartitionMap) (k w : string) : PartitionMap :=
  match d with
  | [] => [(k, set_add w [])]
  | (k', v) :: d' =>
      if String.eqb k' k then (k', set_add w v) :: d'
      else (k', v) :: dict_add d' k w
  end.

(** [partition], lines 26-32. *)
Definition partition (words guessed : list string) : PartitionMap :=
  fold_left (fun partitions word =>
               let masked := mask_word word guessed in
               dict_add partitions masked word)
            words [].

(** [max_partition], lines 35-45, under the raw random draw [r]. *)
Definition max_partition (r : nat) (partitions : PartitionMap) : result string :=
  match Py.max (List.map (fun kv => List.length (snd kv)) partitions) with
  | Raise e => Raise e
  | Ok max_size =>
      let largest_partitions :=
        List.map fst
          (List.filter (fun kv => (List.length (snd kv) =? max_size)%nat) partitions) in
      let largest_partitions :=
        sort_by (fun mask => str_count "-" mask) largest_partitions in
      random_choice r largest_partitions
  end.

(** ** The word list *)

(** [load_words], lines 10-18: [file] is the list of the file's lines, or
    [None] when the file does not exist. *)
Definition load_words (file : option (list string)) : list string :=
  match file with
  | Some lines =>
      List.map (fun line => str_lower (strip line))
               (List.filter (fun line => negb (String.eqb (strip line) "")) lines)
  | None => []
  end.

(** ** Session: the loops of play_hangman *)

(** The variables of one round, lines 72 and 81-85. *)
Record Session : Type := mkSession {
  words : list string;
  guessed : list string;
  remaining_guesses : Z;
  hint : string;
  show_details : bool;
  won : bool
}.

(** What [print] writes, one constructor per message of the two loops. *)
Inductive Output : Type :=
| PrintLengthZero
| PrintNoWords (len : Z)
| PrintInvalidLength
| PrintExiting
| PrintRemaining (n : Z)
| PrintGuessed (g : list string)
| PrintHint (h : string)
| PrintPotentialWords (ws : list string)
| PrintPossibleCount (n : nat)
| PrintNotSingleLetter
| PrintAlreadyGuessed (g : string)
| PrintPartitionsHeader
| PrintPartition (p_hint : string) (p_words : list string)
| PrintMiss (g : string)
| PrintHit (g : string)
| PrintNoChange (g : string)
| PrintWin (h : string)
| PrintLost (w : string).

(** The answer to the length prompt, after [int(...)]: the quit keyword, a
    string that is no integer, or the integer. *)
Inductive LengthInput : Type :=
| InQuit
| InNotInt
| InInt (word_length : Z).

Inductive LengthOutcome : Type :=
| LenQuit
| LenRetry
| LenStart (st : Session).

(** One pass of the length loop and the round set-up, lines 57-85. *)
Definition select_length (word_list : list string) (inp : LengthInput)
  : LengthOutcome * list Output :=
  match inp with
  | InQuit => (LenQuit, [PrintExiting])
  | InNotInt => (LenRetry, [PrintInvalidLength])
  | InInt word_length =>
      if (word_length =? 0)%Z then (LenRetry, [PrintLengthZero])
      else
        let words :=
          set_of_list
            (List.filter
               (fun word => (Z.of_nat (String.length word) =? Z.abs word_length)%Z)
               word_list) in
        match words with
        | [] => (LenRetry, [PrintNoWords (Z.abs word_length)])
        | _ =>
            (LenStart
               {| words := words;
                  guessed := [];
                  remaining_guesses := 5;
                  hint := str_repeat "-" (Z.to_nat (Z.abs word_length));
                  show_details := (word_length <? 0)%Z;
                  won := false |},
             [])
        end
  end.

(** What one pass of the main loop does with its input line. *)
Inductive Step : Type :=
| Rejected (out : list Output)
| Accepted (st' : Session) (out : list Output)
| Crashed (e : exn) (out : list Output).

(** Lines 89-95. *)
Definition prompt_output (st : Session) : list Output :=
  [PrintRemaining (remaining_guesses st); PrintGuessed (guessed st);
   PrintHint (hint st)]
  ++ (if show_details st
      then [PrintPotentialWords (words st);
            PrintPossibleCount (List.length (words st))]
      else []).

(** Lines 115-118. *)
Definition partitions_output (st : Session) (partitions : PartitionMap)
  : list Output :=
  if show_details st
  then PrintPartitionsHeader
         :: List.map (fun kv => PrintPartition (fst kv) (snd kv)) partitions
  else [].

(** The body of the main loop, lines 89-137, on the input [line] and the raw
    random draw [r]. *)
Definition play_step (st : Session) (line : string) (r : nat) : Step :=
  let out := prompt_output st in
  let guess := str_lower line in
  if negb (isalpha guess) || negb (String.length guess =? 1)%nat
  then Rejected (out ++ [PrintNotSingleLetter])
  else if set_mem guess (guessed st)
  then Rejected (out ++ [PrintAlreadyGuessed guess])
  else
    let guessed' := set_add guess (guessed st) in
    let partitions := partition (words st) guessed' in
    let out := (out ++ partitions_output st partitions)%list in
    let previous_hint := hint st in
    match max_partition r partitions with
    | Raise e => Crashed e out
    | Ok hint' =>
        let words' := dict_get partitions hint' in
        let miss := negb (str_in guess hint') in
        let remaining' :=
          if miss then (remaining_guesses st - 1)%Z else remaining_guesses st in
        let out :=
          (out ++ [if miss then PrintMiss guess else PrintHit guess]
               ++ (if String.eqb previous_hint hint'
                   then [PrintNoChange guess] else []))%list in
        if negb (str_in "-" hint')
        then Accepted (mkSession words' guessed' remaining' hint'
                                 (show_details st) true)
                      (out ++ [PrintWin hint'])
        else Accepted (mkSession words' guessed' remaining' hint'
                                 (show_details st) (won st))
                      out
    end.

Inductive Status : Type :=
| AwaitingInput
| Won
| Lost (word : string)
| Failed (e : exn).

Record Run : Type := mkRun {
  final : Session;
  status : Status;
  output : list Output
}.

Definition say (out : list Output) (run : Run) : Run :=
  mkRun (final run) (status run) (out ++ output run).

(** After the main loop, lines 140-141; [r] is the raw draw of the reveal. *)
Definition finish (st : Session) (r : nat) : Run :=
  if negb (won st)
  then match random_choice r (words st) with
       | Ok w => mkRun st (Lost w) [PrintLost w]
       | Raise e => mkRun st (Failed e) []
       end
  else mkRun st Won [].

(** The condition of the main loop, line 88. *)
Definition playing (st : Session) : bool :=
  (0 <? remaining_guesses st)%Z && str_in "-" (hint st).

(** The main loop, lines 88-141, on the lines the player types; [rng k] is
    the [k]-th raw draw of the random source. The loop leaves by the [break]
    of line 137 when the new pattern has no ['-'], and stops with
    [AwaitingInput] when the lines run out. *)
Fixpoint play_loop (st : Session) (inputs : list string)
                   (rng : nat -> nat) (k : nat) : Run :=
  if playing st
  then match inputs with
       | [] => mkRun st AwaitingInput []
       | line :: rest =>
           match play_step st line (rng k) with
           | Rejected out => say out (play_loop st rest rng k)
           | Crashed e out => mkRun st (Failed e) out
           | Accepted st' out =>
               if negb (str_in "-" (hint st'))
               then say out (finish st' (rng (S k)))
               else say out (play_loop st' rest rng (S k))
           end
       end
  else finish st (rng k).

(** A round: the length request [word_length], then the main loop. *)
Definition play_round (word_list : list string) (word_length : Z)
                      (inputs : list string) (rng : nat -> nat) : option Run :=
  match fst (select_length word_list (InInt word_length)) with
  | LenStart st => Some (play_loop st inputs rng 0)
  | _ => None
  end.

(** ** The program: play_hangman as a machine driven by its input lines *)

(** What [print] writes outside the two loops above: a message of those
    loops, or one of lines 17, 52, 148-154 and 150. *)
Inductive Message : Type :=
| InRound (o : Output)
| PrintFileNotFound
| PrintUnableToLoad
| PrintYesOrNo
| PrintThanks.

(** Where [play_hangman] stands between two lines of input: at the [input]
    of line 59, of line 98 (with the variables of the round) or of line 146;
    or it has returned, or an exception has left it. *)
Inductive Phase : Type :=
| AtLength
| AtLetter (st : Session)
| AtReplay
| Returned
| Raised (e : exn).

(** The phase and the number of draws taken from the random source. *)
Record Machine : Type := mkMachine {
  phase : Phase;
  draws : nat
}.

(** Lines 59-65: the quit keyword, or [int(word_length)]. The builtin [int]
    is the parameter [int], [None] standing for its [ValueError]. *)
Definition parse_length (int : string -> option Z) (line : string)
  : LengthInput :=
  if String.eqb (str_lower line) "quit" then InQuit
  else match int line with
       | Some n => InInt n
       | None => InNotInt
       end.

(** Lines 140-146, after the main loop: the loss message takes one draw. *)
Definition after_loop (st : Session) (rng : nat -> nat) (k : nat)
  : Machine * list Message :=
  let run := finish st (rng k) in
  (match status run with
   | Failed e => mkMachine (Raised e) (S k)
   | Won => mkMachine AtReplay k
   | _ => mkMachine AtReplay (S k)
   end,
   List.map InRound (output run)).

(** The test of line 88: on to the header of lines 89-95, which is printed
    before the [input] of line 98 waits, or out of the loop. *)
Definition loop_top (st : Session) (rng : nat -> nat) (k : nat)
  : Machine * list Message :=
  if playing st
  then (mkMachine (AtLetter st) k, List.map InRound (prompt_output st))
  else after_loop st rng k.

(** What a pass of the main loop prints once its line is read: the output
    of [play_step] after the header, which [loop_top] has printed already. *)
Definition after_header (st : Session) (out : list Output) : list Output :=
  skipn (List.length (prompt_output st)) out.

Definition and_then (out : list Message) (r : Machine * list Message)
  : Machine * list Message :=
  (fst r, (out ++ snd r)%list).

(** What [play_hangman] does with one line of input, up to its next
    [input]. *)
Definition hangman_step (word_list : list string) (int : string -> option Z)
                        (rng : nat -> nat) (m : Machine) (line : string)
  : Machine * list Message :=
  match phase m with
  | AtLength =>
      match select_length word_list (parse_length int line) with
      | (LenQuit, out) => (mkMachine Returned (draws m), List.map InRound out)
      | (LenRetry, out) => (mkMachine AtLength (draws m), List.map InRound out)
      | (LenStart st, out) =>
          and_then (List.map InRound out) (loop_top st rng (draws m))
      end
  | AtLetter st =>
      match play_step st line (rng (draws m)) with
      | Rejected out =>
          and_then (List.map InRound (after_header st out))
                   (loop_top st rng (draws m))
      | Crashed e out =>
          (mkMachine (Raised e) (S (draws m)),
           List.map InRound (after_header st out))
      | Accepted st' out =>
          and_then (List.map InRound (after_header st out))
                   (if negb (str_in "-" (hint st'))
                    then after_loop st' rng (S (draws m))
                    else loop_top st' rng (S (draws m)))
      end
  | AtReplay =>
      let play_again := str_lower (strip line) in
      if negb (set_mem play_again ["y"; "n"])
      then (mkMachine AtReplay (draws m), [PrintYesOrNo])
      else if String.eqb play_again "n"
      then (mkMachine Returned (draws m), [PrintThanks])
      else (mkMachine AtLength (draws m), [])
  | Returned => (m, [])
  | Raised _ => (m, [])
  end.

(** The machine on the lines the player types. *)
Fixpoint run_hangman (word_list : list string) (int : string -> option Z)
                     (rng : nat -> nat) (m : Machine) (inputs : list string)
  : Machine * list Message :=
  match inputs with
  | [] => (m, [])
  | line :: rest =>
      let r := hangman_step word_list int rng m line in
      and_then (snd r) (run_hangman word_list int rng (fst r) rest)
  end.

(** [play_hangman], lines 49-154: [file] is what the file of [filename]
    holds ([None] when there is no such file, which [load_words] reports). *)
Definition play_hangman (int : string -> option Z) (file : option (list string))
                        (inputs : list string) (rng : nat -> nat)
  : Machine * list Message :=
  let word_list := load_words file in
  let out := match file with
             | Some _ => []
             | None => [PrintFileNotFound]
             end in
  match word_list with
  | [] => (mkMachine Returned 0, (out ++ [PrintUnableToLoad])%list)
  | _ => and_then out (run_hangman word_list int rng (mkMachine AtLength 0) inputs)
  end.

(** ** The tests *)

(** The assertion of [test_mask_word], lines 174-177. *)
Definition test_mask_word_assertion (test_word : string)
                                    (guessed_letters : list string) : bool :=
  let masked_result := mask_word test_word guessed_letters in
  forallb (fun lm => set_mem (fst lm) guessed_letters || String.eqb (snd lm) "-")
          (List.combine (chars test_word) (chars masked_result)).

(** The assertions of [test_partition], lines 187-191. *)
Definition test_partition_assertion (test_words guessed_letters : list string)
  : bool :=
  let partitions := partition test_words guessed_letters in
  forallb (fun kv =>
             forallb (fun word =>
                        String.eqb (mask_word word guessed_letters) (fst kv))
                     (snd kv))
          partitions.

(** The assertion of [test_max_partition], lines 201-204. *)
Definition test_max_partition_assertion (r : nat)
           (test_words guessed_letters : list string) : result bool :=
  let partitions := partition test_words guessed_letters in
  match max_partition r partitions with
  | Ok max_part => Ok (dict_mem partitions max_part)
  | Raise e => Raise e
  end.

(** The assertion of [test_partition_with_empty_word_list], lines 210-214. *)
Definition test_partition_with_empty_word_list_assertion : bool :=
  let empty_word_list := [] in
  let guessed_letters := ["a"; "e"; "i"; "o"; "u"] in
  let partitions := partition empty_word_list guessed_letters in
  (List.length partitions =? 0)%nat.

(** The assertion of [test_mask_word_all_guessed], lines 220-224, on any
    [test_word]. *)
Definition test_mask_word_all_guessed_assertion (test_word : string) : bool :=
  let guessed_letters := set_of_list (chars test_word) in
  let masked_result := mask_word test_word guessed_letters in
  String.eqb masked_result test_word.

(** * Vocabulary of the properties *)

(** What [mask_word] shows for the letter [c]. *)
Definition mask_char (guessed : list string) (c : ascii) : ascii :=
  if set_mem (chr c) guessed then c else PLACEHOLDER.

(** All the words of a partition map, bucket after bucket. *)
Definition elems (d : PartitionMap) : list string := List.concat (List.map snd d).

(** A bucket is a non-empty duplicate free set of words that its key
    masks. *)
Definition bucket_ok (g : list string) (kv : string * list string) : Prop :=
  snd kv <> [] /\ NoDup (snd kv) /\
  Forall (fun w => mask_word w g = fst kv) (snd kv).

(** The invariant of the loop of [partition]: distinct keys, good buckets. *)
Definition PartInv (g : list string) (d : PartitionMap) : Prop :=
  NoDup (List.map fst d) /\ Forall (bucket_ok g) d.

(** The keys [max_partition] draws from: those of the buckets of largest
    size. *)
Definition largest (partitions : PartitionMap) (p : string) : Prop :=
  exists b, In (p, b) partitions /\
            forall q c, In (q, c) partitions -> List.length c <= List.length b.

(** The guess of an accepted pass: the lowercased input line. *)
Definition guess_of (line : string) : string := str_lower line.

(** Case analysis on the 256 characters. *)
Ltac ascii_cases c :=
  destruct c as [[] [] [] [] [] [] [] []]; vm_compute; try reflexivity.

(** The number of placeholders of a pattern. *)
Definition placeholders (h : string) : nat := str_count PLACEHOLDER h.

(** Every candidate is masked to the current pattern. *)
Definition Consistent (st : Session) : Prop :=
  words st <> [] /\
  forall w, In w (words st) -> mask_word w (guessed st) = hint st.

(** Remaining guesses plus placeholders: what every accepted guess lowers. *)
Definition measure (st : Session) : Z :=
  (remaining_guesses st + Z.of_nat (placeholders (hint st)))%Z.

(** The hit and miss messages, lines 125 and 128: one per accepted guess. *)
Definition is_outcome (o : Output) : bool :=
  match o with
  | PrintMiss _ | PrintHit _ => true
  | _ => false
  end.

(** The number of guesses a run accepted, read off its output. *)
Definition accepted_guesses (out : list Output) : nat :=
  List.length (List.filter is_outcome out).

(** The session without its presentation flag. *)
Definition erase_details (st : Session) : Session :=
  mkSession (words st) (guessed st) (remaining_guesses st) (hint st)
            false (won st).

(** The messages that only detailed play prints, lines 93-95 and 115-118. *)
Definition is_detail (o : Output) : bool :=
  match o with
  | PrintPotentialWords _ | PrintPossibleCount _
  | PrintPartitionsHeader | PrintPartition _ _ => true
  | _ => false
  end.

(** The output without the detail messages. *)
Definition public (out : list Output) : list Output :=
  List.filter (fun o => negb (is_detail o)) out.

(** A run as regular play shows it. *)
Definition hide (run : Run) : Run :=
  mkRun (erase_details (final run)) (status run) (public (output run)).

(** A pass of the main loop as regular play shows it. *)
Definition hide_step (s : Step) : Step :=
  match s with
  | Rejected out => Rejected (public out)
  | Accepted st' out => Accepted (erase_details st') (public out)
  | Crashed e out => Crashed e (public out)
  end.

(** A string that [str.lower] leaves as it is. *)
Definition lowercase (s : string) : Prop := str_lower s = s.

(** The words and the guesses of a session are lowercase. *)
Definition Lowercase (st : Session) : Prop :=
  (forall w, In w (words st) -> lowercase w) /\
  (forall g, In g (guessed st) -> lowercase g).

(** The miss messages of an output, line 125. *)
Definition is_miss (o : Output) : bool :=
  match o with
  | PrintMiss _ => true
  | _ => false
  end.

Definition misses (out : list Output) : nat :=
  List.length (List.filter is_miss out).

(** The letter [c] occurs in the word [w]. *)
Definition has_letter (c : ascii) (w : string) : bool :=
  negb (str_count c w =? 0)%nat.

(** A guess the letter prompt accepts: one lowercase letter. *)
Definition letter (g : string) : Prop :=
  isalpha g = true /\ String.length g = 1 /\ lowercase g.

(** A round in play on [word_list] with words of length [L]. *)
Record RoundInv (word_list : list string) (L : nat) (st : Session) : Prop := {
  inv_words_nonempty : words st <> [];
  inv_words_nodup : NoDup (words st);
  inv_words_listed : forall w, In w (words st) ->
                               In w word_list /\ String.length w = L;
  inv_consistent : forall w, In w (words st) ->
                             mask_word w (guessed st) = hint st;
  inv_hint_length : String.length (hint st) = L;
  inv_remaining : (0 <= remaining_guesses st <= 5)%Z;
  inv_guessed_nodup : NoDup (guessed st);
  inv_guessed_letters : forall g, In g (guessed st) -> letter g
}.

(** A line that ends the program: the quit keyword at the length prompt or
    a no at the replay prompt. *)
Definition ends_program (line : string) : bool :=
  String.eqb (str_lower line) "quit" || String.eqb (str_lower (strip line)) "n".

(** A decimal reading of unsigned digit strings, to run the program on. *)
Fixpoint digits_value (s : string) (acc : Z) : option Z :=
  match s with
  | EmptyString => Some acc
  | String c s' =>
      let n := nat_of_ascii c in
      if ((48 <=? n) && (n <=? 57))%nat
      then digits_value s' (10 * acc + Z.of_nat (n - 48))%Z
      else None
  end.

Definition int_of_digits (s : string) : option Z :=
  match s with
  | EmptyString => None
  | _ => digits_value s 0%Z
  end.

(** The phases a run of the program can be in: at the letter prompt the
    candidate set is not empty and the loop condition holds, and no
    exception has left the program. *)
Definition phase_ok (ph : Phase) : Prop :=
  match ph with
  | AtLetter st => words st <> [] /\ playing st = true
  | Raised _ => False
  | _ => True
  end.

(** What a pass of the main loop printed, whatever became of it. *)
Definition step_output (s : Step) : list Output :=
  match s with
  | Rejected out => out
  | Accepted _ out => out
  | Crashed _ out => out
  end.

(** * Properties *)

(** ** Sets and strings *)

Lemma set_mem_In (x : string) (s : list string) :
  set_mem x s = true <-> In x s.
Proof.
  unfold set_mem. rewrite existsb_exists. split.
  - intros [y [Hy Heq]]. apply String.eqb_eq in Heq. now subst.
  - intros H. exists x. split; [exact H | apply String.eqb_refl].
Qed.

Lemma set_mem_not_In (x : string) (s : list string) :
  set_mem x s = false <-> ~ In x s.
Proof.
  rewrite <- set_mem_In. destruct (set_mem x s); split; congruence.
Qed.

Lemma set_add_In (x y : string) (s : list string) :
  In y (set_add x s) <-> y = x \/ In y s.
Proof.
  unfold set_add. destruct (set_mem x s) eqn:E.
  - apply set_mem_In in E. split; [auto | intros [-> | H]; assumption].
  - rewrite in_app_iff. simpl. intuition congruence.
Qed.

Lemma set_mem_add (x y : string) (s : list string) :
  set_mem y (set_add x s) = String.eqb y x || set_mem y s.
Proof.
  apply eq_true_iff_eq. rewrite orb_true_iff, !set_mem_In, set_add_In.
  now rewrite String.eqb_eq.
Qed.

Lemma set_add_NoDup (x : string) (s : list string) :
  NoDup s -> NoDup (set_add x s).
Proof.
  intros H. unfold set_add. destruct (set_mem x s) eqn:E; [exact H |].
  apply set_mem_not_In in E.
  apply NoDup_app; [exact H | repeat constructor; simpl; tauto |].
  intros a Ha [<- | []]. exact (E Ha).
Qed.

Lemma set_add_not_nil (x : string) (s : list string) : set_add x s <> [].
Proof.
  unfold set_add. destruct (set_mem x s) eqn:E.
  - apply set_mem_In in E. now destruct s.
  - now destruct s.
Qed.

(** ** Masker *)

Lemma mask_word_cons (c : ascii) (w : string) (g : list string) :
  mask_word (String c w) g = String (mask_char g c) (mask_word w g).
Proof.
  unfold mask_word, mask_char. simpl. now destruct (set_mem (chr c) g).
Qed.

Lemma mask_word_nil (g : list string) : mask_word "" g = "".
Proof. reflexivity. Qed.

Lemma mask_word_length (w : string) (g : list string) :
  String.length (mask_word w g) = String.length w.
Proof.
  induction w as [| c w IH]; [reflexivity |].
  rewrite mask_word_cons. simpl. now rewrite IH.
Qed.

Lemma mask_word_get (w : string) (g : list string) (i : nat) :
  String.get i (mask_word w g) = option_map (mask_char g) (String.get i w).
Proof.
  revert i. induction w as [| c w IH]; intros i; [reflexivity |].
  rewrite mask_word_cons. destruct i as [| i]; simpl; [reflexivity | apply IH].
Qed.

(** C5. [mask_word w g] is as long as [w]; at each position [i] it holds the
    letter of [w] at [i] when that letter is a member of [g], and the
    placeholder ['-'] when it is not. *)
Theorem mask_word_spec (w : string) (g : list string) :
  String.length (mask_word w g) = String.length w /\
  forall (i : nat) (c : ascii),
    String.get i w = Some c ->
    (In (chr c) g -> String.get i (mask_word w g) = Some c) /\
    (~ In (chr c) g -> String.get i (mask_word w g) = Some PLACEHOLDER).
Proof.
  split; [apply mask_word_length |].
  intros i c Hc. rewrite mask_word_get, Hc. unfold mask_char. simpl.
  split; intros H.
  - apply set_mem_In in H. now rewrite H.
  - apply set_mem_not_In in H. now rewrite H.
Qed.

Lemma mask_word_spec_witness :
  (String.get 0 "cat" = Some "c"%char /\
   In (chr "c") ["c"; "t"] /\
   String.get 0 (mask_word "cat" ["c"; "t"]) = Some "c"%char) /\
  (String.get 1 "cat" = Some "a"%char /\
   ~ In (chr "a") ["c"; "t"] /\
   String.get 1 (mask_word "cat" ["c"; "t"]) = Some PLACEHOLDER).
Proof.
  assert (Hin : In (chr "c") ["c"; "t"]) by (simpl; auto).
  assert (Hout : ~ In (chr "a") ["c"; "t"])
    by (simpl; intros [H | [H | []]]; discriminate H).
  split; (split; [reflexivity |]); (split; [assumption |]).
  - exact (proj1 (proj2 (mask_word_spec "cat" ["c"; "t"]) 0 "c"%char eq_refl) Hin).
  - exact (proj2 (proj2 (mask_word_spec "cat" ["c"; "t"]) 1 "a"%char eq_refl) Hout).
Defined.

(** ** Partitioner *)

Lemma in_elems (d : PartitionMap) (w : string) :
  In w (elems d) <-> exists p b, In (p, b) d /\ In w b.
Proof.
  unfold elems. rewrite in_concat. split.
  - intros [b [Hb Hw]]. apply in_map_iff in Hb as [[p b'] [Heq Hin]].
    simpl in Heq. subst b'. now exists p, b.
  - intros [p [b [Hin Hw]]]. exists b. split; [| exact Hw].
    apply in_map_iff. now exists (p, b).
Qed.

Lemma dict_add_keys (d : PartitionMap) (k w k' : string) :
  In k' (List.map fst (dict_add d k w)) <-> k' = k \/ In k' (List.map fst d).
Proof.
  induction d as [| [k0 v] d IH]; simpl.
  - intuition congruence.
  - destruct (String.eqb_spec k0 k) as [-> | Hne]; simpl.
    + intuition congruence.
    + rewrite IH. tauto.
Qed.

Lemma dict_add_elems (d : PartitionMap) (k w x : string) :
  In x (elems (dict_add d k w)) <-> x = w \/ In x (elems d).
Proof.
  induction d as [| [k0 v] d IH]; unfold elems in *; simpl.
  - unfold set_add. simpl. intuition congruence.
  - destruct (String.eqb k0 k); simpl; rewrite !in_app_iff.
    + rewrite set_add_In. tauto.
    + rewrite IH. tauto.
Qed.

Lemma dict_add_inv (g : list string) (d : PartitionMap) (w : string) :
  PartInv g d -> PartInv g (dict_add d (mask_word w g) w).
Proof.
  unfold PartInv. induction d as [| [k0 v] d IH]; simpl; intros [Hk Hb].
  - split; [repeat constructor; simpl; tauto |].
    repeat constructor; simpl; try tauto. discriminate.
  - inversion Hk as [| ? ? Hnot Hk']; subst.
    inversion Hb as [| ? ? [Hne [Hnd Hm]] Hb']; subst. simpl in *.
    destruct (String.eqb_spec k0 (mask_word w g)) as [Heq | Hneq]; simpl.
    + split; [exact Hk |]. constructor; [| exact Hb'].
      repeat split; simpl.
      * apply set_add_not_nil.
      * now apply set_add_NoDup.
      * apply Forall_forall. intros x Hx. apply set_add_In in Hx as [-> | Hx].
        -- now symmetry.
        -- rewrite Forall_forall in Hm. now apply Hm.
    + destruct (IH (conj Hk' Hb')) as [IHk IHb]. split.
      * constructor; [| exact IHk]. rewrite dict_add_keys.
        intros [-> | Hin]; [now apply Hneq | now apply Hnot].
      * constructor; [| exact IHb]. now repeat split.
Qed.

Lemma PartInv_nil (g : list string) : PartInv g [].
Proof. split; constructor. Qed.

Lemma partition_fold_inv (g : list string) (ws : list string) (d : PartitionMap) :
  PartInv g d ->
  PartInv g (fold_left (fun partitions word =>
                          dict_add partitions (mask_word word g) word) ws d).
Proof.
  revert d. induction ws as [| w ws IH]; intros d Hd; simpl; [exact Hd |].
  apply IH. now apply dict_add_inv.
Qed.

Lemma partition_fold_elems (g : list string) (ws : list string)
      (d : PartitionMap) (x : string) :
  In x (elems (fold_left (fun partitions word =>
                            dict_add partitions (mask_word word g) word) ws d))
  <-> In x ws \/ In x (elems d).
Proof.
  revert d. induction ws as [| w ws IH]; intros d; simpl; [tauto |].
  rewrite IH, dict_add_elems. intuition congruence.
Qed.

Lemma partition_inv (C g : list string) : PartInv g (partition C g).
Proof. apply partition_fold_inv, PartInv_nil. Qed.

Lemma partition_elems (C g : list string) (w : string) :
  In w (elems (partition C g)) <-> In w C.
Proof.
  unfold partition. rewrite partition_fold_elems. simpl. tauto.
Qed.

Lemma PartInv_bucket (g : list string) (d : PartitionMap)
      (p : string) (b : list string) :
  PartInv g d -> In (p, b) d ->
  b <> [] /\ NoDup b /\ forall w, In w b -> mask_word w g = p.
Proof.
  intros [_ Hb] Hin. rewrite Forall_forall in Hb.
  destruct (Hb _ Hin) as [Hne [Hnd Hm]]. simpl in *.
  rewrite Forall_forall in Hm. auto.
Qed.

Lemma PartInv_key_position (g : list string) (d : PartitionMap) (i j : nat)
      (p : string) (bp bq : list string) :
  PartInv g d ->
  nth_error d i = Some (p, bp) -> nth_error d j = Some (p, bq) -> i = j.
Proof.
  intros [Hk _] Hi Hj.
  apply (proj1 (NoDup_nth_error (List.map fst d)) Hk).
  - rewrite length_map. apply nth_error_Some. congruence.
  - now rewrite !nth_error_map, Hi, Hj.
Qed.

Lemma PartInv_dict_get (g : list string) (d : PartitionMap)
      (p : string) (b : list string) :
  PartInv g d -> In (p, b) d -> dict_get d p = b.
Proof.
  intros [Hk _]. induction d as [| [k0 v] d IH]; simpl; [tauto |].
  inversion Hk as [| ? ? Hnot Hk']; subst. intros [Heq | Hin].
  - injection Heq as -> ->. now rewrite String.eqb_refl.
  - destruct (String.eqb_spec k0 p) as [-> | Hne]; [| now apply IH].
    exfalso. apply Hnot. apply in_map_iff. now exists (p, b).
Qed.

Lemma dict_mem_In (d : PartitionMap) (p : string) :
  dict_mem d p = true <-> In p (List.map fst d).
Proof.
  induction d as [| [k0 v] d IH]; simpl; [split; [discriminate | tauto] |].
  rewrite orb_true_iff, IH, String.eqb_eq. tauto.
Qed.

Lemma dict_get_In (d : PartitionMap) (p : string) :
  In p (List.map fst d) -> In (p, dict_get d p) d.
Proof.
  induction d as [| [k0 v] d IH]; simpl; [tauto |].
  destruct (String.eqb_spec k0 p) as [-> | Hne]; [now left |].
  intros [Heq | Hin]; [contradiction | right; now apply IH].
Qed.

Lemma PartInv_elems_NoDup (g : list string) (d : PartitionMap) :
  PartInv g d -> NoDup (elems d).
Proof.
  unfold PartInv, elems. induction d as [| [k0 v] d IH]; simpl; intros [Hk Hb].
  - constructor.
  - inversion Hk as [| ? ? Hnot Hk']; subst.
    inversion Hb as [| ? ? [Hne [Hnd Hm]] Hb']; subst. simpl in *.
    apply NoDup_app; [exact Hnd | now apply IH |].
    intros a Ha Hin. apply Hnot.
    apply (in_elems d a) in Hin as [p [b [Hpb Hab]]].
    rewrite Forall_forall in Hm, Hb'.
    destruct (Hb' _ Hpb) as [_ [_ Hm']]. rewrite Forall_forall in Hm'.
    simpl in Hm'. rewrite <- (Hm _ Ha), (Hm' _ Hab).
    apply in_map_iff. now exists (p, b).
Qed.

(** C2. The buckets of [partition C g] are pairwise disjoint (and their keys
    distinct), their union is [C], no word is dropped or duplicated, every
    word of the bucket keyed by [p] is masked to [p], and an empty candidate
    set gives the empty map. *)
Theorem partition_spec (C g : list string) :
  (forall i j p q bp bq,
      nth_error (partition C g) i = Some (p, bp) ->
      nth_error (partition C g) j = Some (q, bq) ->
      i <> j ->
      p <> q /\ forall w, In w bp -> ~ In w bq) /\
  (forall w, In w C <-> exists p b, In (p, b) (partition C g) /\ In w b) /\
  (forall p b, In (p, b) (partition C g) -> NoDup b) /\
  (NoDup C -> Permutation (elems (partition C g)) C) /\
  (forall p b w, In (p, b) (partition C g) -> In w b -> mask_word w g = p) /\
  partition [] g = [].
Proof.
  pose proof (partition_inv C g) as Hinv.
  assert (Hmask : forall p b w,
             In (p, b) (partition C g) -> In w b -> mask_word w g = p).
  { intros p b w Hin Hw.
    now apply (PartInv_bucket g _ p b Hinv Hin). }
  split; [| split; [| split; [| split; [| split]]]].
  - intros i j p q bp bq Hi Hj Hij.
    assert (Hpq : p <> q).
    { intros ->. apply Hij. eapply PartInv_key_position; eassumption. }
    split; [exact Hpq |]. intros w Hbp Hbq. apply Hpq.
    rewrite <- (Hmask p bp w), <- (Hmask q bq w); eauto using nth_error_In.
  - intros w. rewrite <- in_elems. symmetry. apply partition_elems.
  - intros p b Hin. now apply (PartInv_bucket g _ p b Hinv).
  - intros HC. apply NoDup_Permutation.
    + now apply (PartInv_elems_NoDup g).
    + exact HC.
    + intros x. apply partition_elems.
  - exact Hmask.
  - reflexivity.
Qed.

Lemma partition_spec_witness :
  partition ["ab"; "cd"; "ad"] ["a"] = [("a-", ["ab"; "ad"]); ("--", ["cd"])] /\
  ("a-" <> "--" /\ ~ In "ab" ["cd"]) /\
  (In "cd" ["ab"; "cd"; "ad"] ->
   exists p b, In (p, b) (partition ["ab"; "cd"; "ad"] ["a"]) /\ In "cd" b) /\
  NoDup ["ab"; "ad"] /\
  Permutation (elems (partition ["ab"; "cd"; "ad"] ["a"])) ["ab"; "cd"; "ad"] /\
  mask_word "ad" ["a"] = "a-".
Proof.
  destruct (partition_spec ["ab"; "cd"; "ad"] ["a"])
    as (Hdisj & Hunion & Hnd & Hperm & Hmask & _).
  split; [reflexivity |].
  split.
  { destruct (Hdisj 0 1 "a-" "--" ["ab"; "ad"] ["cd"] eq_refl eq_refl) as [Hk Hd].
    - discriminate.
    - split; [exact Hk | apply Hd; simpl; auto]. }
  split; [apply Hunion |].
  split; [apply (Hnd "a-"); simpl; auto |].
  split.
  { apply Hperm. repeat constructor; simpl; intuition discriminate. }
  apply (Hmask "a-" ["ab"; "ad"]); simpl; auto.
Defined.

(** ** Selector *)

Lemma fold_max_ge (xs : list nat) (x : nat) :
  x <= fold_left Nat.max xs x /\
  forall y, In y xs -> y <= fold_left Nat.max xs x.
Proof.
  revert x. induction xs as [| a xs IH]; intros x; simpl.
  - split; [lia | tauto].
  - destruct (IH (Nat.max x a)) as [H1 H2]. split; [lia |].
    intros y [<- | Hy]; [lia | now apply H2].
Qed.

Lemma fold_max_In (xs : list nat) (x : nat) :
  In (fold_left Nat.max xs x) (x :: xs).
Proof.
  revert x. induction xs as [| a xs IH]; intros x; simpl; [auto |].
  destruct (IH (Nat.max x a)) as [H | H]; [| auto].
  destruct (Nat.max_spec x a) as [[_ E] | [_ E]]; rewrite E in *; auto.
Qed.

Lemma max_spec (l : list nat) (m : nat) :
  Py.max l = Ok m <-> In m l /\ forall y, In y l -> y <= m.
Proof.
  destruct l as [| x xs]; simpl.
  - split; [discriminate | tauto].
  - split.
    + intros [= <-]. split; [apply fold_max_In |].
      intros y [<- | Hy];
        [exact (proj1 (fold_max_ge xs x)) | exact (proj2 (fold_max_ge xs x) y Hy)].
    + intros [Hin Hmax]. f_equal. apply Nat.le_antisymm.
      * apply Hmax. apply fold_max_In.
      * destruct Hin as [<- | Hin];
          [exact (proj1 (fold_max_ge xs x)) | exact (proj2 (fold_max_ge xs x) m Hin)].
Qed.

Lemma max_nonempty (l : list nat) : l <> [] -> exists m, Py.max l = Ok m.
Proof. destruct l; [congruence | eexists; reflexivity]. Qed.

Lemma insert_by_In {A : Type} (key : A -> nat) (x y : A) (l : list A) :
  In y (insert_by key x l) <-> y = x \/ In y l.
Proof.
  induction l as [| a l IH]; simpl; [intuition congruence |].
  destruct (key x <=? key a)%nat; simpl; [intuition congruence |].
  rewrite IH. tauto.
Qed.

Lemma sort_by_In {A : Type} (key : A -> nat) (y : A) (l : list A) :
  In y (sort_by key l) <-> In y l.
Proof.
  induction l as [| a l IH]; simpl; [tauto |].
  rewrite insert_by_In, IH. intuition congruence.
Qed.

Lemma random_choice_In {A : Type} (r : nat) (seq : list A) (x : A) :
  random_choice r seq = Ok x -> In x seq.
Proof.
  unfold random_choice.
  destruct (nth_error seq (r mod List.length seq)) eqn:E; [| discriminate].
  intros [= <-]. eapply nth_error_In; eassumption.
Qed.

Lemma random_choice_total {A : Type} (r : nat) (seq : list A) :
  seq <> [] -> exists x, random_choice r seq = Ok x.
Proof.
  intros Hne. unfold random_choice.
  destruct (nth_error seq (r mod List.length seq)) eqn:E; [eauto |].
  apply nth_error_None in E. exfalso.
  assert (List.length seq <> 0) by (destruct seq; simpl; congruence).
  pose proof (Nat.mod_upper_bound r (List.length seq)). lia.
Qed.

Lemma random_choice_any {A : Type} (seq : list A) (x : A) :
  In x seq -> exists r, random_choice r seq = Ok x.
Proof.
  intros Hin. apply In_nth_error in Hin as [i Hi]. exists i.
  unfold random_choice. rewrite Nat.mod_small, Hi; [reflexivity |].
  apply nth_error_Some. congruence.
Qed.

Lemma max_partition_largest (r : nat) (partitions : PartitionMap) (p : string) :
  max_partition r partitions = Ok p -> largest partitions p.
Proof.
  unfold max_partition.
  destruct (Py.max _) as [m |] eqn:Em; [| discriminate].
  intros H. apply random_choice_In, sort_by_In, in_map_iff in H.
  destruct H as [[p' b] [Hp Hin]]. simpl in Hp. subst p'.
  apply filter_In in Hin as [Hin Hsz]. simpl in Hsz.
  apply Nat.eqb_eq in Hsz. apply max_spec in Em as [_ Hmax].
  exists b. split; [exact Hin |]. intros q c Hc. rewrite Hsz.
  apply Hmax, in_map_iff. now exists (q, c).
Qed.

Lemma max_partition_total (r : nat) (partitions : PartitionMap) :
  partitions <> [] -> exists p, max_partition r partitions = Ok p.
Proof.
  intros Hne. unfold max_partition.
  destruct (max_nonempty (List.map (fun kv => List.length (snd kv)) partitions))
    as [m Em]; [now destruct partitions |].
  rewrite Em. apply random_choice_total.
  apply max_spec in Em as [Hin _]. apply in_map_iff in Hin as [[p b] [Hsz Hin]].
  intros Hnil.
  assert (Hp : In p (sort_by (fun mask => str_count "-" mask)
                      (List.map fst
                         (List.filter
                            (fun kv => (List.length (snd kv) =? m)%nat)
                            partitions)))).
  { apply sort_by_In, in_map_iff. exists (p, b). split; [reflexivity |].
    apply filter_In. split; [exact Hin |]. now apply Nat.eqb_eq. }
  rewrite Hnil in Hp. exact Hp.
Qed.

(** For a suitable draw [max_partition] returns any key of a largest bucket,
    whatever its number of placeholders. *)
Lemma max_partition_any (partitions : PartitionMap) (p : string) :
  largest partitions p -> exists r, max_partition r partitions = Ok p.
Proof.
  intros [b [Hin Hmax]]. unfold max_partition.
  assert (Em : Py.max (List.map (fun kv => List.length (snd kv)) partitions)
               = Ok (List.length b)).
  { apply max_spec. split.
    - apply in_map_iff. now exists (p, b).
    - intros y Hy. apply in_map_iff in Hy as [[q c] [<- Hc]]. simpl. eauto. }
  rewrite Em. apply random_choice_any, sort_by_In, in_map_iff.
  exists (p, b). split; [reflexivity |]. apply filter_In.
  split; [exact Hin | apply Nat.eqb_refl].
Qed.

(** C7. On the empty partition map [max_partition] raises [ValueError]
    ([max] of an empty sequence), whatever the random draw: no pattern is
    returned. *)
Theorem max_partition_empty (r : nat) : max_partition r [] = Raise ValueError.
Proof. reflexivity. Qed.

(** C1, at the input where the code departs from it. The map of
    [{"ab", "cd"}] under the guess ["a"] has two buckets of size one, ["a-"]
    (one letter shown) and ["--"] (none shown). The sort by [count('-')]
    puts ["a-"] first and [random.choice] then draws from the whole list:
    index 0 returns ["a-"], index 1 returns ["--"]. *)
Theorem max_partition_ignores_reveal_count :
  partition ["ab"; "cd"] ["a"] = [("a-", ["ab"]); ("--", ["cd"])] /\
  max_partition 0 (partition ["ab"; "cd"] ["a"]) = Ok "a-" /\
  max_partition 1 (partition ["ab"; "cd"] ["a"]) = Ok "--".
Proof. repeat split. Qed.

(** ** Session: one pass of the main loop *)

Lemma play_step_accepted (st : Session) (line : string) (r : nat)
      (st' : Session) (out : list Output) :
  play_step st line r = Accepted st' out ->
  isalpha (guess_of line) = true /\
  String.length (guess_of line) = 1 /\
  set_mem (guess_of line) (guessed st) = false /\
  max_partition r (partition (words st) (set_add (guess_of line) (guessed st)))
    = Ok (hint st') /\
  words st' = dict_get (partition (words st)
                                  (set_add (guess_of line) (guessed st)))
                       (hint st') /\
  guessed st' = set_add (guess_of line) (guessed st) /\
  remaining_guesses st' =
    (if str_in (guess_of line) (hint st')
     then remaining_guesses st else remaining_guesses st - 1)%Z /\
  show_details st' = show_details st /\
  won st' = (if str_in "-" (hint st') then won st else true) /\
  out = (prompt_output st
         ++ partitions_output st
              (partition (words st) (set_add (guess_of line) (guessed st)))
         ++ [if str_in (guess_of line) (hint st')
             then PrintHit (guess_of line) else PrintMiss (guess_of line)]
         ++ (if String.eqb (hint st) (hint st')
             then [PrintNoChange (guess_of line)] else [])
         ++ (if str_in "-" (hint st') then [] else [PrintWin (hint st')]))%list.
Proof.
  unfold play_step, guess_of.
  destruct (isalpha (str_lower line)); simpl; [| discriminate].
  destruct (String.length (str_lower line) =? 1)%nat eqn:El; simpl;
    [| discriminate].
  apply Nat.eqb_eq in El.
  destruct (set_mem (str_lower line) (guessed st)); [discriminate |].
  destruct (max_partition r _) as [h |]; [| discriminate].
  destruct (str_in "-" h) eqn:Ed; simpl; intros [= <- <-]; simpl;
    rewrite ?Ed; repeat split; trivial;
    destruct (str_in (str_lower line) h); simpl;
    rewrite <- ?app_assoc; simpl; rewrite ?app_nil_r; reflexivity.
Qed.

Lemma play_step_rejected (st : Session) (line : string) :
  isalpha (guess_of line) = false \/
  String.length (guess_of line) <> 1 \/
  set_mem (guess_of line) (guessed st) = true ->
  exists msg,
    (forall r, play_step st line r = Rejected (prompt_output st ++ [msg])) /\
    (msg = PrintNotSingleLetter \/ msg = PrintAlreadyGuessed (guess_of line)).
Proof.
  unfold play_step, guess_of. intros H.
  destruct (isalpha (str_lower line)); simpl; [| eauto].
  destruct (String.length (str_lower line) =? 1)%nat eqn:El; simpl; [| eauto].
  apply Nat.eqb_eq in El.
  destruct (set_mem (str_lower line) (guessed st)); [eauto |].
  destruct H as [H | [H | H]]; congruence.
Qed.

(** C4. On an accepted guess [g] the new pattern is the one [max_partition]
    selects on the partition of the candidates under the guess set with [g]
    added, and the new candidates are its bucket. The remaining guesses go
    down by exactly one when [g] does not occur in that newly selected
    pattern (a miss, reported as such), and stay as they are when it does (a
    hit): the decrement happens if and only if [g] is not in the new
    pattern. *)
Theorem miss_iff_not_in_hint (st : Session) (line : string) (r : nat)
        (st' : Session) (out : list Output) :
  play_step st line r = Accepted st' out ->
  (forall x, In x (guessed st') <-> x = guess_of line \/ In x (guessed st)) /\
  max_partition r (partition (words st) (guessed st')) = Ok (hint st') /\
  words st' = dict_get (partition (words st) (guessed st')) (hint st') /\
  (str_in (guess_of line) (hint st') = false ->
   remaining_guesses st' = (remaining_guesses st - 1)%Z /\
   In (PrintMiss (guess_of line)) out) /\
  (str_in (guess_of line) (hint st') = true ->
   remaining_guesses st' = remaining_guesses st /\
   In (PrintHit (guess_of line)) out) /\
  (remaining_guesses st' = (remaining_guesses st - 1)%Z <->
   str_in (guess_of line) (hint st') = false).
Proof.
  intros H. apply play_step_accepted in H.
  destruct H as (_ & _ & _ & Hsel & Hws & HG & Hrem & _ & _ & ->).
  rewrite <- HG in Hsel, Hws.
  split; [intros x; rewrite HG; apply set_add_In |].
  split; [exact Hsel |]. split; [exact Hws |].
  destruct (str_in (guess_of line) (hint st')); rewrite Hrem.
  - split; [discriminate |]. split.
    + intros _. split; [reflexivity |].
      rewrite !in_app_iff. right. right. left. simpl. auto.
    + split; [lia | discriminate].
  - split.
    + intros _. split; [reflexivity |].
      rewrite !in_app_iff. right. right. left. simpl. auto.
    + split; [discriminate |]. split; reflexivity.
Qed.

Lemma miss_iff_not_in_hint_witness :
  let st := mkSession ["dog"; "cat"] [] 5 "---" false false in
  let st' := mkSession ["dog"; "cat"] ["z"] 4 "---" false false in
  let one := mkSession ["cat"] ["z"] 4 "---" false false in
  let one' := mkSession ["cat"] ["z"; "c"] 4 "c--" false false in
  (play_step st "z" 0 =
     Accepted st' [PrintRemaining 5; PrintGuessed []; PrintHint "---";
                   PrintMiss "z"; PrintNoChange "z"] /\
   max_partition 0 (partition (words st) (guessed st')) = Ok "---" /\
   str_in (guess_of "z") (hint st') = false /\
   remaining_guesses st' = (remaining_guesses st - 1)%Z) /\
  (play_step one "c" 0 =
     Accepted one' [PrintRemaining 4; PrintGuessed ["z"]; PrintHint "---";
                    PrintHit "c"] /\
   max_partition 0 (partition (words one) (guessed one')) = Ok "c--" /\
   str_in (guess_of "c") (hint one') = true /\
   remaining_guesses one' = remaining_guesses one).
Proof.
  intros st st' one one'.
  destruct (miss_iff_not_in_hint st "z" 0 st'
              [PrintRemaining 5; PrintGuessed []; PrintHint "---";
               PrintMiss "z"; PrintNoChange "z"] eq_refl)
    as (_ & Hsel & _ & Hmiss & _).
  destruct (miss_iff_not_in_hint one "c" 0 one'
              [PrintRemaining 4; PrintGuessed ["z"]; PrintHint "---";
               PrintHit "c"] eq_refl)
    as (_ & Hsel' & _ & _ & Hhit & _).
  split.
  - split; [reflexivity |]. split; [exact Hsel |]. split; [reflexivity |].
    exact (proj1 (Hmiss eq_refl)).
  - split; [reflexivity |]. split; [exact Hsel' |]. split; [reflexivity |].
    exact (proj1 (Hhit eq_refl)).
Defined.

(** ** Letters and case *)

Lemma lower_char_alpha (c : ascii) :
  isalpha_char (lower_char c) = isalpha_char c.
Proof. ascii_cases c. Qed.

Lemma lower_char_idem (c : ascii) : lower_char (lower_char c) = lower_char c.
Proof. ascii_cases c. Qed.

Lemma str_lower_length (s : string) :
  String.length (str_lower s) = String.length s.
Proof. induction s as [| c s IH]; simpl; congruence. Qed.

Lemma str_lower_idem (s : string) : str_lower (str_lower s) = str_lower s.
Proof.
  induction s as [| c s IH]; simpl; [reflexivity |].
  now rewrite lower_char_idem, IH.
Qed.

Lemma all_alpha_lower (s : string) : all_alpha (str_lower s) = all_alpha s.
Proof.
  induction s as [| c s IH]; simpl; [reflexivity |].
  now rewrite lower_char_alpha, IH.
Qed.

Lemma isalpha_lower (s : string) : isalpha (str_lower s) = isalpha s.
Proof.
  destruct s as [| c s]; [reflexivity |].
  change (all_alpha (str_lower (String c s)) = all_alpha (String c s)).
  apply all_alpha_lower.
Qed.

Lemma single_letter (s : string) :
  isalpha s = true -> String.length s = 1 ->
  exists c, s = chr c /\ isalpha_char c = true.
Proof.
  destruct s as [| c [| d s]]; simpl; try discriminate.
  intros H _. exists c. split; [reflexivity |].
  now apply andb_true_iff in H.
Qed.

(** ** Session: rejected input *)

(** C8. An input line that is not a single alphabetic character, or whose
    letter is already in the guess set, is rejected with a message; the loop
    then reads the next line from the very same session state (guess set,
    candidate set, pattern, remaining guesses) and the same position of the
    random source. *)
Theorem rejected_guess_keeps_state (st : Session) (line : string) :
  isalpha line = false \/
  String.length line <> 1 \/
  set_mem (str_lower line) (guessed st) = true ->
  exists msg,
    (msg = PrintNotSingleLetter \/ msg = PrintAlreadyGuessed (str_lower line)) /\
    (forall r, play_step st line r = Rejected (prompt_output st ++ [msg])) /\
    (forall rest rng k,
        playing st = true ->
        play_loop st (line :: rest) rng k =
        say (prompt_output st ++ [msg]) (play_loop st rest rng k)).
Proof.
  intros H.
  assert (H' : isalpha (guess_of line) = false \/
               String.length (guess_of line) <> 1 \/
               set_mem (guess_of line) (guessed st) = true).
  { unfold guess_of. rewrite isalpha_lower, str_lower_length. exact H. }
  destruct (play_step_rejected st line H') as [msg [Hall Hmsg]].
  exists msg. split; [exact Hmsg |]. split; [exact Hall |].
  intros rest rng k Hplay. simpl. now rewrite Hplay, Hall.
Qed.

Lemma rejected_guess_keeps_state_witness :
  let st := mkSession ["dog"; "cat"] ["z"] 4 "---" false false in
  set_mem (str_lower "Z") (guessed st) = true /\
  playing st = true /\
  exists msg,
    play_step st "Z" 0 = Rejected (prompt_output st ++ [msg]) /\
    play_loop st ["Z"; "c"] (fun _ => 0) 0 =
    say (prompt_output st ++ [msg]) (play_loop st ["c"] (fun _ => 0) 0).
Proof.
  intros st. split; [reflexivity |]. split; [reflexivity |].
  destruct (rejected_guess_keeps_state st "Z" (or_intror (or_intror eq_refl)))
    as [msg [_ [Hstep Hloop]]].
  exists msg. split; [apply Hstep | apply Hloop; reflexivity].
Defined.

(** ** Session: the candidate set stays non-empty *)

Lemma partition_not_nil (C g : list string) : C <> [] -> partition C g <> [].
Proof.
  intros HC Hnil. destruct C as [| w C]; [congruence |].
  assert (H : In w (elems (partition (w :: C) g)))
    by (apply partition_elems; simpl; auto).
  now rewrite Hnil in H.
Qed.

(** What the selected pattern is, on the map of a candidate set. *)
Lemma selected_bucket (C g : list string) (r : nat) (p : string) :
  max_partition r (partition C g) = Ok p ->
  In (p, dict_get (partition C g) p) (partition C g) /\
  dict_get (partition C g) p <> [] /\
  (forall w, In w (dict_get (partition C g) p) ->
             In w C /\ mask_word w g = p).
Proof.
  intros H. apply max_partition_largest in H as [b [Hin _]].
  pose proof (partition_inv C g) as Hinv.
  rewrite (PartInv_dict_get g _ p b Hinv Hin).
  destruct (PartInv_bucket g _ p b Hinv Hin) as [Hne [_ Hm]].
  split; [exact Hin |]. split; [exact Hne |].
  intros w Hw. split; [| now apply Hm].
  apply (partition_elems C g), in_elems. now exists p, b.
Qed.

Lemma play_step_no_crash (st : Session) (line : string) (r : nat)
      (e : exn) (out : list Output) :
  words st <> [] -> play_step st line r <> Crashed e out.
Proof.
  intros Hne. unfold play_step.
  destruct (negb _ || negb _); [discriminate |].
  destruct (set_mem _ _); [discriminate |].
  destruct (max_partition_total r
              (partition (words st) (set_add (str_lower line) (guessed st)))
              (partition_not_nil _ _ Hne)) as [p Hp].
  rewrite Hp. destruct (negb _); discriminate.
Qed.

Lemma play_step_words (st : Session) (line : string) (r : nat)
      (st' : Session) (out : list Output) :
  play_step st line r = Accepted st' out ->
  words st' <> [] /\
  forall w, In w (words st') ->
            In w (words st) /\ mask_word w (guessed st') = hint st'.
Proof.
  intros H. apply play_step_accepted in H.
  destruct H as (_ & _ & _ & Hsel & -> & -> & _).
  apply selected_bucket in Hsel as (_ & Hne & Hw). auto.
Qed.

Lemma finish_status (st : Session) (r : nat) :
  words st <> [] ->
  final (finish st r) = st /\
  (status (finish st r) = Won \/
   exists w, In w (words st) /\ status (finish st r) = Lost w).
Proof.
  intros Hne. unfold finish. destruct (won st); simpl; [auto |].
  destruct (random_choice_total r (words st) Hne) as [w Hw]. rewrite Hw. simpl.
  split; [reflexivity |]. right. exists w.
  split; [now apply random_choice_In in Hw | reflexivity].
Qed.

Lemma play_loop_words (inputs : list string) (rng : nat -> nat) :
  forall (st : Session) (k : nat),
    words st <> [] ->
    words (final (play_loop st inputs rng k)) <> [] /\
    forall e, status (play_loop st inputs rng k) <> Failed e.
Proof.
  assert (Hfin : forall st r, words st <> [] ->
            words (final (finish st r)) <> [] /\
            forall e, status (finish st r) <> Failed e).
  { intros st r Hne. destruct (finish_status st r Hne) as [-> [-> | [w [_ ->]]]];
      split; trivial; discriminate. }
  induction inputs as [| line rest IH]; intros st k Hne; simpl;
    destruct (playing st); auto.
  - split; [exact Hne | discriminate].
  - destruct (play_step st line (rng k)) as [out | st' out | e out] eqn:Es.
    + simpl. now apply IH.
    + apply play_step_words in Es as [Hne' _].
      destruct (negb _); simpl; [now apply Hfin | now apply IH].
    + now apply play_step_no_crash in Es.
Qed.

Lemma set_of_list_fold (l s : list string) (x : string) :
  In x (fold_left (fun s x => set_add x s) l s) <-> In x l \/ In x s.
Proof.
  revert s. induction l as [| a l IH]; intros s; simpl; [tauto |].
  rewrite IH, set_add_In. intuition congruence.
Qed.

Lemma set_of_list_In (l : list string) (x : string) :
  In x (set_of_list l) <-> In x l.
Proof. unfold set_of_list. rewrite set_of_list_fold. simpl. tauto. Qed.

(** The round that a length request starts. *)
Lemma select_length_start (word_list : list string) (n : Z)
      (st : Session) (out : list Output) :
  select_length word_list (InInt n) = (LenStart st, out) ->
  n <> 0%Z /\
  words st <> [] /\
  (forall w, In w (words st) <->
             In w word_list /\ Z.of_nat (String.length w) = Z.abs n) /\
  guessed st = [] /\
  remaining_guesses st = 5%Z /\
  hint st = str_repeat "-" (Z.to_nat (Z.abs n)) /\
  show_details st = (n <? 0)%Z /\
  won st = false.
Proof.
  simpl. destruct (Z.eqb_spec n 0) as [| Hn]; [discriminate |].
  destruct (set_of_list _) as [| w ws] eqn:Ew; [discriminate |].
  intros [= <- _]. cbn [words guessed remaining_guesses hint show_details won].
  rewrite <- Ew.
  split; [exact Hn |]. split; [rewrite Ew; discriminate |].
  split; [| repeat split].
  intros x. rewrite set_of_list_In, filter_In, Z.eqb_eq. tauto.
Qed.

(** C3. On the map of a non-empty candidate set [max_partition] returns a
    key of that map whose bucket is non-empty; hence a pass of the main loop
    on a non-empty candidate set never fails and leaves a non-empty
    candidate set, and so does every round from its start on. *)
Theorem selected_pattern_is_key :
  (forall (C g : list string) (r : nat),
      C <> [] ->
      exists p,
        max_partition r (partition C g) = Ok p /\
        dict_mem (partition C g) p = true /\
        In (p, dict_get (partition C g) p) (partition C g) /\
        dict_get (partition C g) p <> []) /\
  (forall (st : Session) (line : string) (r : nat),
      words st <> [] ->
      (forall e out, play_step st line r <> Crashed e out) /\
      (forall st' out, play_step st line r = Accepted st' out ->
                       words st' <> [])) /\
  (forall (word_list : list string) (n : Z) (st : Session) (out : list Output)
          (inputs : list string) (rng : nat -> nat),
      select_length word_list (InInt n) = (LenStart st, out) ->
      words st <> [] /\
      words (final (play_loop st inputs rng 0)) <> [] /\
      forall e, status (play_loop st inputs rng 0) <> Failed e).
Proof.
  split; [| split].
  - intros C g r HC.
    destruct (max_partition_total r (partition C g) (partition_not_nil C g HC))
      as [p Hp].
    exists p. split; [exact Hp |].
    destruct (selected_bucket C g r p Hp) as (Hin & Hne & _).
    split; [| now split].
    apply dict_mem_In, in_map_iff. now exists (p, dict_get (partition C g) p).
  - intros st line r Hne. split.
    + intros e out. now apply play_step_no_crash.
    + intros st' out H. now apply play_step_words in H.
  - intros word_list n st out inputs rng H.
    apply select_length_start in H as (_ & Hne & _).
    split; [exact Hne |]. now apply play_loop_words.
Qed.

Lemma selected_pattern_is_key_witness :
  ["bat"; "cat"; "hat"; "can"] <> [] /\
  (exists p,
      max_partition 0 (partition ["bat"; "cat"; "hat"; "can"] ["t"]) = Ok p /\
      dict_mem (partition ["bat"; "cat"; "hat"; "can"] ["t"]) p = true) /\
  (forall e,
      status (play_loop (mkSession ["dog"; "cat"] [] 5 "---" false false)
                        ["o"; "d"; "g"] (fun _ => 0) 0) <> Failed e).
Proof.
  destruct selected_pattern_is_key as (Hsel & _ & Hround).
  assert (Hne : ["bat"; "cat"; "hat"; "can"] <> []) by discriminate.
  split; [exact Hne |]. split.
  - destruct (Hsel ["bat"; "cat"; "hat"; "can"] ["t"] 0 Hne) as [p [H1 [H2 _]]].
    exists p. now split.
  - apply (Hround ["dog"; "cat"; "horse"] 3%Z _ [] ["o"; "d"; "g"] (fun _ => 0)
                  eq_refl).
Defined.

(** ** Session: the measure of the main loop *)

Lemma prefix_nil (s : string) : String.prefix "" s = true.
Proof. now destruct s. Qed.

Lemma str_in_chr (c : ascii) (s : string) :
  str_in (chr c) s = negb (str_count c s =? 0)%nat.
Proof.
  induction s as [| d s IH]; [reflexivity |].
  cbn [str_in str_count]. rewrite IH. unfold chr. cbn [String.prefix].
  destruct (ascii_dec c d) as [<- | Hne].
  - now rewrite prefix_nil, Ascii.eqb_refl.
  - destruct (Ascii.eqb_spec d c) as [-> | _]; [congruence | reflexivity].
Qed.

Lemma chr_eqb (c d : ascii) : String.eqb (chr c) (chr d) = Ascii.eqb c d.
Proof.
  unfold chr. cbn [String.eqb]. now destruct (Ascii.eqb c d).
Qed.

Lemma alpha_not_placeholder (c : ascii) :
  isalpha_char c = true -> c <> PLACEHOLDER.
Proof. intros H ->. discriminate H. Qed.

(** Guessing a new letter [c] turns exactly the placeholders that hide [c]
    into [c]. *)
Lemma mask_add_count (w : string) (G : list string) (c : ascii) :
  c <> PLACEHOLDER -> set_mem (chr c) G = false ->
  placeholders (mask_word w (set_add (chr c) G))
  + str_count c (mask_word w (set_add (chr c) G))
  = placeholders (mask_word w G).
Proof.
  intros Hc HG. unfold placeholders.
  induction w as [| d w IH]; [reflexivity |].
  rewrite !mask_word_cons. cbn [str_count]. rewrite <- IH. unfold mask_char.
  rewrite set_mem_add, chr_eqb.
  destruct (Ascii.eqb_spec d c) as [-> | Hdc]; simpl.
  - rewrite HG, Ascii.eqb_refl.
    destruct (Ascii.eqb_spec c PLACEHOLDER); [contradiction |].
    destruct (Ascii.eqb_spec PLACEHOLDER PLACEHOLDER); [lia | congruence].
  - destruct (set_mem (chr d) G).
    + destruct (Ascii.eqb_spec d c); [contradiction | lia].
    + destruct (Ascii.eqb_spec PLACEHOLDER c); [congruence | lia].
Qed.

(** A shown letter stays shown when the guess set grows. *)
Lemma mask_add_keeps (w : string) (G : list string) (g : string)
      (i : nat) (a : ascii) :
  String.get i (mask_word w G) = Some a -> a <> PLACEHOLDER ->
  String.get i (mask_word w (set_add g G)) = Some a.
Proof.
  rewrite !mask_word_get. destruct (String.get i w) as [d |]; [| discriminate].
  simpl. unfold mask_char. rewrite set_mem_add.
  destruct (set_mem (chr d) G); [now rewrite orb_true_r |].
  intros [= <-] H. congruence.
Qed.

Lemma play_step_progress (st : Session) (line : string) (r : nat)
      (st' : Session) (out : list Output) :
  Consistent st -> play_step st line r = Accepted st' out ->
  Consistent st' /\
  (measure st' < measure st)%Z /\
  (str_in (guess_of line) (hint st') = true ->
   placeholders (hint st') < placeholders (hint st)) /\
  (forall i a, String.get i (hint st) = Some a -> a <> PLACEHOLDER ->
               String.get i (hint st') = Some a).
Proof.
  intros [_ Hcons] Hstep.
  destruct (play_step_words _ _ _ _ _ Hstep) as [Hne Hw].
  apply play_step_accepted in Hstep.
  destruct Hstep as (Ha & Hl & Hg & _ & _ & HG & Hrem & _).
  destruct (single_letter _ Ha Hl) as [c [Ec Hc]].
  apply alpha_not_placeholder in Hc.
  assert (Hc' : Consistent st')
    by (split; [exact Hne |]; intros x Hx; now apply Hw).
  destruct (words st') as [| w ws] eqn:Ew; [congruence |].
  destruct (Hw w (or_introl eq_refl)) as [Hin Hm].
  pose proof (Hcons w Hin) as Hold.
  rewrite HG, Ec in Hm. rewrite Ec in Hg.
  pose proof (mask_add_count w (guessed st) c Hc Hg) as Hcount.
  rewrite Hm, Hold in Hcount.
  split; [exact Hc' |].
  unfold measure. rewrite Hrem, Ec, str_in_chr.
  split; [| split].
  - destruct (Nat.eqb_spec (str_count c (hint st')) 0); simpl; lia.
  - destruct (Nat.eqb_spec (str_count c (hint st')) 0); simpl;
      [discriminate | lia].
  - intros i a Hi Hna. rewrite <- Hm. rewrite <- Hold in Hi.
    now apply mask_add_keeps.
Qed.

Lemma accepted_guesses_app (o1 o2 : list Output) :
  accepted_guesses (o1 ++ o2) = accepted_guesses o1 + accepted_guesses o2.
Proof. unfold accepted_guesses. now rewrite filter_app, length_app. Qed.

Lemma prompt_output_count (st : Session) :
  accepted_guesses (prompt_output st) = 0.
Proof. unfold prompt_output. now destruct (show_details st). Qed.

Lemma partitions_output_count (st : Session) (d : PartitionMap) :
  accepted_guesses (partitions_output st d) = 0.
Proof.
  unfold partitions_output. destruct (show_details st); [| reflexivity].
  unfold accepted_guesses. simpl. induction d as [| kv d IH]; simpl; auto.
Qed.

Lemma play_step_count (st : Session) (line : string) (r : nat) :
  match play_step st line r with
  | Rejected out => accepted_guesses out = 0
  | Accepted _ out => accepted_guesses out = 1
  | Crashed _ _ => True
  end.
Proof.
  destruct (play_step st line r) as [out | st' out | e out] eqn:Es; [| | exact I].
  - revert Es. unfold play_step.
    destruct (negb _ || negb _);
      [intros [= <-]; now destruct (show_details st) |].
    destruct (set_mem _ _);
      [intros [= <-]; now destruct (show_details st) |].
    destruct (max_partition _ _); [| discriminate].
    destruct (negb _); discriminate.
  - apply play_step_accepted in Es.
    destruct Es as (_ & _ & _ & _ & _ & _ & _ & _ & _ & ->).
    rewrite !accepted_guesses_app, prompt_output_count, partitions_output_count.
    destruct (str_in (guess_of line) (hint st')),
             (String.eqb (hint st) (hint st')),
             (str_in "-" (hint st')); reflexivity.
Qed.

Lemma finish_count (st : Session) (r : nat) :
  accepted_guesses (output (finish st r)) = 0.
Proof.
  unfold finish. destruct (won st); simpl; [reflexivity |].
  now destruct (random_choice r (words st)).
Qed.

Lemma finish_final (st : Session) (r : nat) : final (finish st r) = st.
Proof.
  unfold finish. destruct (won st); simpl; [reflexivity |].
  now destruct (random_choice r (words st)).
Qed.

(** Along the main loop every accepted guess is paid for by the measure. *)
Lemma play_loop_measure (inputs : list string) (rng : nat -> nat) :
  forall (st : Session) (k : nat),
    Consistent st ->
    (Z.of_nat (accepted_guesses (output (play_loop st inputs rng k)))
     + measure (final (play_loop st inputs rng k)) <= measure st)%Z /\
    (status (play_loop st inputs rng k) = AwaitingInput ->
     playing (final (play_loop st inputs rng k)) = true).
Proof.
  induction inputs as [| line rest IH]; intros st k Hc; simpl;
    destruct (playing st) eqn:Ep.
  - simpl. split; [lia | auto].
  - rewrite finish_count, finish_final. split; [lia |].
    destruct (finish_status st (rng k) (proj1 Hc)) as [_ [-> | [w [_ ->]]]];
      discriminate.
  - pose proof (play_step_count st line (rng k)) as Hn.
    destruct (play_step st line (rng k)) as [out | st' out | e out] eqn:Es.
    + simpl. rewrite accepted_guesses_app, Hn. now apply IH.
    + destruct (play_step_progress _ _ _ _ _ Hc Es) as (Hc' & Hlt & _).
      destruct (negb _); simpl; rewrite accepted_guesses_app, Hn.
      * rewrite finish_count, finish_final. split; [lia |].
        destruct (finish_status st' (rng (S k)) (proj1 Hc'))
          as [_ [-> | [w [_ ->]]]]; discriminate.
      * destruct (IH st' (S k) Hc') as [H1 H2]. split; [lia | exact H2].
    + now apply play_step_no_crash in Es; [| apply Hc].
  - rewrite finish_count, finish_final. split; [lia |].
    destruct (finish_status st (rng k) (proj1 Hc)) as [_ [-> | [w [_ ->]]]];
      discriminate.
Qed.

Lemma play_loop_remaining (inputs : list string) (rng : nat -> nat) :
  forall (st : Session) (k : nat),
    (0 <= remaining_guesses st)%Z ->
    (0 <= remaining_guesses (final (play_loop st inputs rng k)))%Z.
Proof.
  induction inputs as [| line rest IH]; intros st k Hpos; simpl;
    destruct (playing st) eqn:Ep;
    rewrite ?finish_final; trivial.
  destruct (play_step st line (rng k)) as [out | st' out | e out] eqn:Es;
    simpl; [now apply IH | | exact Hpos].
  apply play_step_accepted in Es.
  destruct Es as (_ & _ & _ & _ & _ & _ & Hrem & _).
  unfold playing in Ep. apply andb_true_iff in Ep as [Ep _].
  apply Z.ltb_lt in Ep.
  assert (0 <= remaining_guesses st')%Z
    by (rewrite Hrem; destruct (str_in _ _); lia).
  destruct (negb _); simpl; [now rewrite finish_final | now apply IH].
Qed.

Lemma mask_word_no_guess (w : string) :
  mask_word w [] = str_repeat PLACEHOLDER (String.length w).
Proof.
  induction w as [| c w IH]; [reflexivity |].
  rewrite mask_word_cons, IH. reflexivity.
Qed.

Lemma placeholders_repeat (n : nat) :
  placeholders (str_repeat PLACEHOLDER n) = n.
Proof.
  unfold placeholders. induction n as [| n IH]; simpl; [reflexivity |].
  now rewrite IH.
Qed.

Lemma playing_measure (st : Session) :
  playing st = true -> (2 <= measure st)%Z.
Proof.
  unfold playing, measure. intros H. apply andb_true_iff in H as [Hr Hd].
  apply Z.ltb_lt in Hr. change "-" with (chr PLACEHOLDER) in Hd.
  rewrite str_in_chr in Hd. fold (placeholders (hint st)) in Hd.
  destruct (Nat.eqb_spec (placeholders (hint st)) 0); [discriminate | lia].
Qed.

Lemma select_length_consistent (word_list : list string) (n : Z)
      (st : Session) (out : list Output) :
  select_length word_list (InInt n) = (LenStart st, out) ->
  Consistent st /\ measure st = (5 + Z.abs n)%Z.
Proof.
  intros H.
  apply select_length_start in H as (_ & Hne & Hw & Hg & Hr & Hh & _).
  split; [split; [exact Hne |] |].
  - intros w Hin. apply Hw in Hin as [_ Hlen].
    rewrite Hg, Hh, mask_word_no_guess, <- Hlen, Nat2Z.id. reflexivity.
  - unfold measure. rewrite Hr, Hh, placeholders_repeat. lia.
Qed.

(** C10. From a state whose candidates are all masked to the current
    pattern, an accepted guess strictly decreases remaining guesses plus
    placeholders: a hit removes at least one placeholder, shown letters stay
    shown, and a miss costs one guess. A round started by a length request
    [n] therefore accepts at most [5 + |n|] guesses: it is won or lost, or
    it waits for input having accepted fewer than that. *)
Theorem round_terminates :
  (forall (st : Session) (line : string) (r : nat)
          (st' : Session) (out : list Output),
      Consistent st -> play_step st line r = Accepted st' out ->
      Consistent st' /\
      (measure st' < measure st)%Z /\
      (str_in (guess_of line) (hint st') = true ->
       placeholders (hint st') < placeholders (hint st)) /\
      (forall i a, String.get i (hint st) = Some a -> a <> PLACEHOLDER ->
                   String.get i (hint st') = Some a)) /\
  (forall (word_list : list string) (n : Z) (st : Session) (out : list Output)
          (inputs : list string) (rng : nat -> nat),
      select_length word_list (InInt n) = (LenStart st, out) ->
      (Z.of_nat (accepted_guesses (output (play_loop st inputs rng 0)))
       <= 5 + Z.abs n)%Z /\
      (status (play_loop st inputs rng 0) = Won \/
       (exists w, status (play_loop st inputs rng 0) = Lost w) \/
       (status (play_loop st inputs rng 0) = AwaitingInput /\
        (Z.of_nat (accepted_guesses (output (play_loop st inputs rng 0)))
         < 5 + Z.abs n)%Z))).
Proof.
  split; [exact play_step_progress |].
  intros word_list n st out inputs rng H.
  pose proof (select_length_start _ _ _ _ H) as (_ & Hne & _ & _ & Hr & _).
  apply select_length_consistent in H as [Hc Hm].
  destruct (play_loop_measure inputs rng st 0 Hc) as [Hle Hwait].
  destruct (play_loop_words inputs rng st 0 Hne) as [_ Hok].
  assert (Hpos : (0 <= remaining_guesses (final (play_loop st inputs rng 0)))%Z)
    by (apply play_loop_remaining; lia).
  rewrite Hm in Hle. split.
  - unfold measure in Hle. lia.
  - destruct (status (play_loop st inputs rng 0)) as [| | w | e] eqn:Es.
    + right. right. split; [reflexivity |].
      pose proof (playing_measure _ (Hwait eq_refl)). lia.
    + now left.
    + right. left. now exists w.
    + now elim (Hok e).
Qed.

Lemma round_terminates_witness :
  let st := mkSession ["dog"; "cat"] [] 5 "---" false false in
  let st' := mkSession ["dog"] ["o"] 5 "-o-" false false in
  let run := play_loop st ["o"; "x"; "d"; "g"] (fun _ => 0) 0 in
  (Consistent st /\
   play_step st "o" 0 =
     Accepted st' [PrintRemaining 5; PrintGuessed []; PrintHint "---";
                   PrintHit "o"] /\
   (measure st' < measure st)%Z) /\
  (select_length ["dog"; "cat"; "horse"] (InInt 3) = (LenStart st, []) /\
   status run = Won /\
   (Z.of_nat (accepted_guesses (output run)) <= 5 + Z.abs 3)%Z).
Proof.
  intros st st' run.
  assert (Hc : Consistent st).
  { split; [discriminate |].
    intros w [<- | [<- | []]]; reflexivity. }
  split.
  - split; [exact Hc |]. split; [reflexivity |].
    exact (proj1 (proj2 (proj1 round_terminates st "o" 0 st' _ Hc eq_refl))).
  - split; [reflexivity |]. split; [reflexivity |].
    exact (proj1 (proj2 round_terminates ["dog"; "cat"; "horse"] 3%Z st []
                        ["o"; "x"; "d"; "g"] (fun _ => 0) eq_refl)).
Defined.

(** ** The sign of the length request *)

Lemma public_app (o1 o2 : list Output) :
  public (o1 ++ o2) = (public o1 ++ public o2)%list.
Proof. apply filter_app. Qed.

Lemma public_prompt (st : Session) :
  public (prompt_output st) = prompt_output (erase_details st).
Proof. unfold prompt_output. now destruct (show_details st). Qed.

Lemma public_partitions (st : Session) (d : PartitionMap) :
  public (partitions_output st d) = [].
Proof.
  unfold partitions_output. destruct (show_details st); [| reflexivity].
  unfold public. simpl. induction d as [| kv d IH]; simpl; auto.
Qed.

Lemma play_step_hide (st : Session) (line : string) (r : nat) :
  play_step (erase_details st) line r = hide_step (play_step st line r).
Proof.
  unfold play_step.
  change (guessed (erase_details st)) with (guessed st).
  change (words (erase_details st)) with (words st).
  change (hint (erase_details st)) with (hint st).
  change (remaining_guesses (erase_details st)) with (remaining_guesses st).
  change (won (erase_details st)) with (won st).
  change (show_details (erase_details st)) with false.
  change (partitions_output (erase_details st)) with (fun _ : PartitionMap => @nil Output).
  cbv beta.
  destruct (negb _ || negb _);
    [cbn [hide_step]; now rewrite public_app, public_prompt |].
  destruct (set_mem _ _);
    [cbn [hide_step]; now rewrite public_app, public_prompt |].
  destruct (max_partition r _) as [h |].
  - destruct (negb (str_in "-" h)); cbn [hide_step]; unfold erase_details;
      cbn [words guessed remaining_guesses hint show_details won];
      rewrite !public_app, public_prompt, public_partitions, !app_nil_r;
      f_equal; f_equal;
      destruct (negb (str_in (str_lower line) h)), (String.eqb (hint st) h);
      reflexivity.
  - cbn [hide_step].
    now rewrite public_app, public_prompt, public_partitions, app_nil_r.
Qed.

Lemma finish_hide (st : Session) (r : nat) :
  finish (erase_details st) r = hide (finish st r).
Proof.
  unfold finish, hide. simpl. destruct (won st); simpl; [reflexivity |].
  now destruct (random_choice r (words st)).
Qed.

Lemma say_hide (out : list Output) (run : Run) :
  hide (say out run) = say (public out) (hide run).
Proof. unfold hide, say. simpl. now rewrite public_app. Qed.

Lemma play_loop_hide (inputs : list string) (rng : nat -> nat) :
  forall (st : Session) (k : nat),
    play_loop (erase_details st) inputs rng k = hide (play_loop st inputs rng k).
Proof.
  induction inputs as [| line rest IH]; intros st k; simpl;
    change (playing (erase_details st)) with (playing st);
    destruct (playing st); try apply finish_hide; [reflexivity |].
  rewrite play_step_hide.
  destruct (play_step st line (rng k)) as [out | st' out | e out];
    cbn [hide_step].
  - now rewrite say_hide, IH.
  - change (hint (erase_details st')) with (hint st').
    destruct (negb _); now rewrite say_hide, ?finish_hide, ?IH.
  - reflexivity.
Qed.

Lemma select_length_opp (word_list : list string) (n : Z) :
  fst (select_length word_list (InInt (- n))) =
  match fst (select_length word_list (InInt n)) with
  | LenStart st =>
      LenStart (mkSession (words st) (guessed st) (remaining_guesses st)
                          (hint st) (- n <? 0)%Z (won st))
  | other => other
  end.
Proof.
  simpl. rewrite Z.abs_opp.
  replace (- n =? 0)%Z with (n =? 0)%Z
    by (destruct (Z.eqb_spec n 0), (Z.eqb_spec (- n) 0); trivial; lia).
  destruct (n =? 0)%Z; [reflexivity |].
  now destruct (set_of_list _).
Qed.

(** C9. A length request of 0 is rejected; a request [n] that starts a round
    selects the words of length [|n|], a pattern of [|n|] placeholders and
    detailed play exactly when [n] is negative; and the rounds of [n] and
    [- n] on the same word list, input lines and random draws agree, for
    every input prefix, on candidate set, guess set, pattern, remaining
    guesses, outcome and every message that is not a detail message. *)
Theorem sign_is_presentation_only :
  (forall word_list,
      select_length word_list (InInt 0) = (LenRetry, [PrintLengthZero])) /\
  (forall word_list n st out,
      select_length word_list (InInt n) = (LenStart st, out) ->
      (forall w, In w (words st) <->
                 In w word_list /\ Z.of_nat (String.length w) = Z.abs n) /\
      hint st = str_repeat PLACEHOLDER (Z.to_nat (Z.abs n)) /\
      show_details st = (n <? 0)%Z) /\
  (forall word_list n inputs rng,
      option_map hide (play_round word_list n inputs rng) =
      option_map hide (play_round word_list (- n) inputs rng)).
Proof.
  split; [reflexivity |]. split.
  - intros word_list n st out H.
    apply select_length_start in H as (_ & _ & Hw & _ & _ & Hh & Hs & _).
    split; [exact Hw | split; [exact Hh | exact Hs]].
  - intros word_list n inputs rng. unfold play_round.
    rewrite select_length_opp.
    destruct (fst (select_length word_list (InInt n))) as [| | st];
      try reflexivity.
    simpl. f_equal. now rewrite <- !play_loop_hide.
Qed.

Lemma sign_is_presentation_only_witness :
  select_length ["dog"; "cat"; "horse"] (InInt (-3)) =
    (LenStart (mkSession ["dog"; "cat"] [] 5 "---" true false), []) /\
  (In "cat" ["dog"; "cat"] <->
   In "cat" ["dog"; "cat"; "horse"] /\
   Z.of_nat (String.length "cat") = Z.abs (-3)) /\
  show_details (mkSession ["dog"; "cat"] [] 5 "---" true false) = (-3 <? 0)%Z.
Proof.
  split; [reflexivity |].
  destruct (proj1 (proj2 sign_is_presentation_only)
                  ["dog"; "cat"; "horse"] (-3)%Z _ [] eq_refl)
    as (Hw & _ & Hs).
  split; [apply Hw | exact Hs].
Defined.

(** ** Case *)

Lemma map_lower_id (g : list string) :
  (forall x, In x g -> lowercase x) -> List.map str_lower g = g.
Proof.
  intros H. induction g as [| x g IH]; simpl; [reflexivity |].
  rewrite (H x (or_introl eq_refl)), IH; [reflexivity |].
  intros y Hy. apply H. now right.
Qed.

Lemma load_words_lowercase (file : option (list string)) (w : string) :
  In w (load_words file) -> lowercase w.
Proof.
  destruct file as [lines |]; simpl; [| tauto].
  intros H. apply in_map_iff in H as [line [<- _]]. apply str_lower_idem.
Qed.

(** C6, as the claim states it, fails: [mask_word] compares characters
    exactly, so the ["C"] of ["Cat"] stays hidden under the guess ["c"]. *)
Lemma mask_word_is_case_sensitive :
  mask_word "Cat" ["c"] = "---" /\
  mask_word (str_lower "Cat") (List.map str_lower ["c"]) = "c--" /\
  mask_word "Cat" ["c"]
  <> mask_word (str_lower "Cat") (List.map str_lower ["c"]).
Proof. repeat split. discriminate. Qed.

(** C6, amended. [mask_word] does no case folding; it agrees with the mask
    of the lowercased word and lowercased guess set when the word and the
    guesses are lowercase already, and that is what a session passes to it:
    [load_words] lowercases every word, the round keeps a subset of them,
    and every guess is lowercased before it joins the guess set. *)
Theorem mask_word_lowercase_inputs :
  (forall w g,
      lowercase w -> (forall x, In x g -> lowercase x) ->
      mask_word w g = mask_word (str_lower w) (List.map str_lower g)) /\
  (forall file n st out,
      select_length (load_words file) (InInt n) = (LenStart st, out) ->
      Lowercase st) /\
  (forall st line r st' out,
      Lowercase st -> play_step st line r = Accepted st' out ->
      Lowercase st').
Proof.
  split; [| split].
  - intros w g Hw Hg. now rewrite Hw, (map_lower_id g Hg).
  - intros file n st out H.
    apply select_length_start in H as (_ & _ & Hw & Hg & _).
    split.
    + intros w Hin. apply Hw in Hin as [Hin _].
      now apply load_words_lowercase in Hin.
    + rewrite Hg. intros g [].
  - intros st line r st' out [Hw Hg] H.
    pose proof (play_step_words _ _ _ _ _ H) as [_ Hsub].
    apply play_step_accepted in H.
    destruct H as (_ & _ & _ & _ & _ & HG & _).
    split.
    + intros w Hin. apply Hw. now apply Hsub.
    + rewrite HG. intros g Hin. apply set_add_In in Hin as [-> | Hin].
      * apply str_lower_idem.
      * now apply Hg.
Qed.

Lemma mask_word_lowercase_inputs_witness :
  let st := mkSession ["dog"; "cat"] [] 5 "---" false false in
  let st' := mkSession ["cat"] ["c"] 5 "c--" false false in
  (lowercase "cat" /\
   mask_word "cat" ["c"] = mask_word (str_lower "cat") (List.map str_lower ["c"])) /\
  (select_length (load_words (Some [" Dog"; "CAT "; ""; "Horse"])) (InInt 3)
   = (LenStart st, []) /\ Lowercase st) /\
  (play_step st "C" 0 =
     Accepted st' [PrintRemaining 5; PrintGuessed []; PrintHint "---";
                   PrintHit "c"] /\
   Lowercase st').
Proof.
  intros st st'.
  destruct mask_word_lowercase_inputs as (Hmask & Hstart & Hstep).
  assert (Hst : Lowercase st)
    by exact (Hstart (Some [" Dog"; "CAT "; ""; "Horse"]) 3%Z st [] eq_refl).
  split; [| split].
  - split; [reflexivity |]. apply Hmask; [reflexivity |].
    intros x [<- | []]. reflexivity.
  - split; [reflexivity | exact Hst].
  - split; [reflexivity |].
    exact (Hstep st "C" 0 st' _ Hst eq_refl).
Defined.

(** * Further properties of the code *)

(** ** Masker: whole words, guess sets as sets *)

Lemma chr_inj (c d : ascii) : chr c = chr d -> c = d.
Proof. now intros [= ->]. Qed.

Lemma mask_char_fixed (g : list string) (c : ascii) :
  mask_char g c = c <-> In (chr c) g \/ chr c = "-".
Proof.
  unfold mask_char. destruct (set_mem (chr c) g) eqn:E.
  - apply set_mem_In in E. tauto.
  - apply set_mem_not_In in E. split.
    + intros H. right. unfold PLACEHOLDER in H. now rewrite <- H.
    + intros [H | H]; [contradiction |]. now apply chr_inj in H.
Qed.

Lemma mask_word_fixed (w : string) (g : list string) :
  mask_word w g = w <-> forall x, In x (chars w) -> In x g \/ x = "-".
Proof.
  induction w as [| c w IH]; simpl.
  - split; [intros _ x [] | reflexivity].
  - rewrite mask_word_cons. split.
    + intros [= Hc Hw] x [<- | Hx].
      * now apply mask_char_fixed.
      * now apply IH.
    + intros H. f_equal.
      * apply mask_char_fixed. apply H. now left.
      * apply IH. intros x Hx. apply H. now right.
Qed.

(** X1. [mask_word] shows the whole word when its letters are all guessed
    (what [test_mask_word_all_guessed] checks on one word), and it returns
    the word unchanged exactly when each of its characters is guessed or is
    itself a ['-']. *)
Theorem mask_word_reveals_whole_word :
  (forall w, mask_word w (set_of_list (chars w)) = w) /\
  (forall w g,
      mask_word w g = w <-> forall x, In x (chars w) -> In x g \/ x = "-").
Proof.
  split; [| exact mask_word_fixed].
  intros w. apply mask_word_fixed. intros x Hx. left.
  now apply set_of_list_In.
Qed.

Lemma mask_word_reveals_whole_word_witness :
  mask_word "python" (set_of_list (chars "python")) = "python" /\
  mask_word "x-ray" ["r"; "a"; "y"; "x"] = "x-ray".
Proof.
  split; [exact (proj1 mask_word_reveals_whole_word "python") |].
  apply (proj2 mask_word_reveals_whole_word "x-ray" ["r"; "a"; "y"; "x"]).
  simpl. intros x [<- | [<- | [<- | [<- | [<- | []]]]]]; simpl; auto 6.
Defined.

(** X2. [mask_word] reads the guess set only through membership: two guess
    sets with the same members give the same pattern, whatever their order
    or repetitions. *)
Theorem mask_word_same_members (w : string) (g g' : list string) :
  (forall x, In x g <-> In x g') -> mask_word w g = mask_word w g'.
Proof.
  intros H. induction w as [| c w IH]; [reflexivity |].
  rewrite !mask_word_cons, IH. f_equal. unfold mask_char.
  replace (set_mem (chr c) g') with (set_mem (chr c) g); [reflexivity |].
  apply eq_true_iff_eq. now rewrite !set_mem_In.
Qed.

Lemma mask_word_same_members_witness :
  mask_word "banana" ["a"; "n"] = mask_word "banana" ["n"; "a"; "n"].
Proof.
  apply (mask_word_same_members "banana" ["a"; "n"] ["n"; "a"; "n"]).
  intros x. simpl. tauto.
Defined.

(** ** The tests *)

Lemma test_mask_word_holds (w : string) (g : list string) :
  test_mask_word_assertion w g = true.
Proof.
  unfold test_mask_word_assertion. induction w as [| c w IH]; [reflexivity |].
  rewrite mask_word_cons. cbn [chars List.combine forallb fst snd].
  rewrite IH, andb_true_r. unfold mask_char.
  now destruct (set_mem (chr c) g).
Qed.

Lemma test_partition_holds (ws g : list string) :
  test_partition_assertion ws g = true.
Proof.
  unfold test_partition_assertion. apply forallb_forall. intros [p b] Hin.
  apply forallb_forall. intros w Hw. simpl. apply String.eqb_eq.
  now apply (PartInv_bucket g _ p b (partition_inv ws g) Hin).
Qed.

Lemma test_max_partition_holds (r : nat) (ws g : list string) :
  ws <> [] -> test_max_partition_assertion r ws g = Ok true.
Proof.
  intros Hne. unfold test_max_partition_assertion.
  destruct (max_partition_total r (partition ws g) (partition_not_nil ws g Hne))
    as [p Hp].
  rewrite Hp. f_equal. apply dict_mem_In.
  destruct (selected_bucket ws g r p Hp) as [Hin _].
  apply in_map_iff. now exists (p, dict_get (partition ws g) p).
Qed.

(** X3. The assertions of the five tests hold on every word, word set and
    guess set the tests can draw (a non-empty word set for
    [test_max_partition], which samples from a non-empty list). *)
Theorem tests_pass :
  (forall w g, test_mask_word_assertion w g = true) /\
  (forall ws g, test_partition_assertion ws g = true) /\
  (forall r ws g, ws <> [] -> test_max_partition_assertion r ws g = Ok true) /\
  test_partition_with_empty_word_list_assertion = true /\
  (forall w, test_mask_word_all_guessed_assertion w = true).
Proof.
  split; [exact test_mask_word_holds |].
  split; [exact test_partition_holds |].
  split; [exact test_max_partition_holds |].
  split; [reflexivity |].
  intros w. unfold test_mask_word_all_guessed_assertion. apply String.eqb_eq.
  apply mask_word_fixed. intros x Hx. left. now apply set_of_list_In.
Qed.

Lemma tests_pass_witness :
  ["bat"; "cat"; "hat"] <> [] /\
  test_max_partition_assertion 2 ["bat"; "cat"; "hat"] ["a"; "b"; "c"] = Ok true.
Proof.
  assert (Hne : ["bat"; "cat"; "hat"] <> []) by discriminate.
  split; [exact Hne |].
  exact (proj1 (proj2 (proj2 tests_pass)) 2 ["bat"; "cat"; "hat"]
               ["a"; "b"; "c"] Hne).
Defined.

(** ** Partitioner: lookup, keys, partitioning again *)

Lemma dict_get_add (d : PartitionMap) (k w p : string) :
  dict_get (dict_add d k w) p =
  if String.eqb k p then set_add w (dict_get d p) else dict_get d p.
Proof.
  induction d as [| [k0 v] d IH]; simpl.
  - now destruct (String.eqb k p).
  - destruct (String.eqb_spec k0 k) as [-> | Hne]; simpl.
    + now destruct (String.eqb k p).
    + rewrite IH. destruct (String.eqb_spec k0 p) as [-> | Hp];
        [| reflexivity].
      destruct (String.eqb_spec k p); [congruence | reflexivity].
Qed.

Lemma dict_get_fold (g : list string) (p : string) (ws : list string) :
  forall d,
    dict_get (fold_left (fun partitions word =>
                           dict_add partitions (mask_word word g) word) ws d) p
    = fold_left (fun s x => set_add x s)
                (List.filter (fun w => String.eqb (mask_word w g) p) ws)
                (dict_get d p).
Proof.
  induction ws as [| w ws IH]; intros d; simpl; [reflexivity |].
  rewrite IH, dict_get_add. now destruct (String.eqb (mask_word w g) p).
Qed.

Lemma dict_get_missing (d : PartitionMap) (p : string) :
  dict_mem d p = false -> dict_get d p = [].
Proof.
  induction d as [| [k0 v] d IH]; simpl; [reflexivity |].
  destruct (String.eqb k0 p); simpl; [discriminate | exact IH].
Qed.

Lemma dict_add_length (d : PartitionMap) (k w : string) :
  List.length (dict_add d k w) <= S (List.length d).
Proof.
  induction d as [| [k0 v] d IH]; simpl; [lia |].
  destruct (String.eqb k0 k); simpl; lia.
Qed.

Lemma partition_fold_length (g : list string) (ws : list string) :
  forall d,
    List.length (fold_left (fun partitions word =>
                              dict_add partitions (mask_word word g) word) ws d)
    <= List.length ws + List.length d.
Proof.
  induction ws as [| w ws IH]; intros d; simpl; [lia |].
  specialize (IH (dict_add d (mask_word w g) w)).
  pose proof (dict_add_length d (mask_word w g) w). lia.
Qed.

(** X5. The keys of [partition C g] are exactly the patterns of the words of
    [C], each once; there are at most as many buckets as words, no bucket is
    empty, and looking up a pattern that is no key gives the empty set. *)
Theorem partition_keys (C g : list string) :
  (forall p, dict_mem (partition C g) p = true <->
             exists w, In w C /\ mask_word w g = p) /\
  NoDup (List.map fst (partition C g)) /\
  List.length (partition C g) <= List.length C /\
  (forall p b, In (p, b) (partition C g) -> b <> []) /\
  (forall p, dict_mem (partition C g) p = false ->
             dict_get (partition C g) p = []).
Proof.
  pose proof (partition_inv C g) as Hinv.
  split; [| split; [| split; [| split]]].
  - intros p. rewrite dict_mem_In. split.
    + intros Hp. apply dict_get_In in Hp.
      destruct (PartInv_bucket g _ _ _ Hinv Hp) as [Hne [_ Hm]].
      destruct (dict_get (partition C g) p) as [| w b] eqn:Eb; [congruence |].
      exists w. split; [| apply Hm; now left].
      apply (partition_elems C g), in_elems. exists p, (w :: b).
      split; [exact Hp | now left].
    + intros [w [Hw <-]]. apply (partition_elems C g), in_elems in Hw.
      destruct Hw as [q [b [Hin Hb]]].
      destruct (PartInv_bucket g _ _ _ Hinv Hin) as [_ [_ Hm]].
      rewrite (Hm w Hb). apply in_map_iff. now exists (q, b).
  - apply Hinv.
  - unfold partition.
    pose proof (partition_fold_length g C []). simpl in *. lia.
  - intros p b Hin. now apply (PartInv_bucket g _ p b Hinv).
  - intros p. apply dict_get_missing.
Qed.

Lemma partition_keys_witness :
  dict_mem (partition ["bat"; "cat"; "can"] ["t"]) "--t" = true /\
  dict_mem (partition ["bat"; "cat"; "can"] ["t"]) "t--" = false /\
  dict_get (partition ["bat"; "cat"; "can"] ["t"]) "t--" = [].
Proof.
  destruct (partition_keys ["bat"; "cat"; "can"] ["t"]) as (Hk & _ & _ & _ & Hm).
  split.
  - apply Hk. exists "cat". split; [simpl; auto | reflexivity].
  - split; [reflexivity | apply Hm; reflexivity].
Defined.

Lemma partition_one_pattern (g : list string) (p : string) (ws : list string) :
  forall acc,
    (forall w, In w ws -> mask_word w g = p) ->
    NoDup (acc ++ ws) ->
    fold_left (fun partitions word =>
                 dict_add partitions (mask_word word g) word) ws [(p, acc)]
    = [(p, (acc ++ ws)%list)].
Proof.
  induction ws as [| w ws IH]; intros acc Hm Hnd; simpl.
  - now rewrite app_nil_r.
  - rewrite (Hm w (or_introl eq_refl)), String.eqb_refl.
    assert (Hw : set_add w acc = (acc ++ [w])%list).
    { unfold set_add. destruct (set_mem w acc) eqn:E; [| reflexivity].
      apply set_mem_In in E. apply NoDup_remove_2 in Hnd.
      elim Hnd. apply in_or_app. now left. }
    rewrite Hw, IH.
    + now rewrite <- app_assoc.
    + intros x Hx. apply Hm. now right.
    + now rewrite <- app_assoc.
Qed.

(** X6. Partitioning a bucket of [partition C g] again under the same guess
    set gives that bucket alone, under its own key. *)
Theorem partition_bucket_again (C g : list string) (p : string) :
  dict_mem (partition C g) p = true ->
  partition (dict_get (partition C g) p) g
  = [(p, dict_get (partition C g) p)].
Proof.
  intros Hp. apply dict_mem_In, dict_get_In in Hp.
  destruct (PartInv_bucket g _ _ _ (partition_inv C g) Hp) as [Hne [Hnd Hm]].
  destruct (dict_get (partition C g) p) as [| w b]; [congruence |].
  unfold partition. simpl.
  change (set_add w []) with [w].
  rewrite (partition_one_pattern g (mask_word w g) b [w]).
  - now rewrite (Hm w (or_introl eq_refl)).
  - intros x Hx. rewrite (Hm w (or_introl eq_refl)). apply Hm. now right.
  - exact Hnd.
Qed.

Lemma partition_bucket_again_witness :
  dict_get (partition ["bat"; "cat"; "can"; "hat"] ["t"]) "--t"
    = ["bat"; "cat"; "hat"] /\
  partition ["bat"; "cat"; "hat"] ["t"] = [("--t", ["bat"; "cat"; "hat"])].
Proof.
  split; [reflexivity |].
  exact (partition_bucket_again ["bat"; "cat"; "can"; "hat"] ["t"] "--t" eq_refl).
Defined.

(** ** Selector: any map *)

(** X7. On any non-empty map [max_partition] returns a key, and a key it
    returns heads a bucket of the largest size; it raises only on the empty
    map, and then [ValueError]. *)
Theorem max_partition_result (r : nat) (d : PartitionMap) :
  (d <> [] -> exists p, max_partition r d = Ok p) /\
  (forall p, max_partition r d = Ok p ->
             exists b, In (p, b) d /\
                       forall q c, In (q, c) d -> List.length c <= List.length b) /\
  (forall e, max_partition r d = Raise e -> d = [] /\ e = ValueError).
Proof.
  split; [apply max_partition_total |].
  split; [intros p; apply max_partition_largest |].
  intros e He. destruct d as [| kv d].
  - simpl in He. injection He as <-. now split.
  - destruct (max_partition_total r (kv :: d)) as [p Hp]; [discriminate |].
    congruence.
Qed.

Lemma max_partition_result_witness :
  ([("--", ["ab"; "cd"]); ("e-", ["ef"])] <> [] /\
   exists p, max_partition 7 [("--", ["ab"; "cd"]); ("e-", ["ef"])] = Ok p) /\
  (max_partition 7 [("--", ["ab"; "cd"]); ("e-", ["ef"])] = Ok "--" /\
   exists b, In ("--", b) [("--", ["ab"; "cd"]); ("e-", ["ef"])] /\
             forall q c, In (q, c) [("--", ["ab"; "cd"]); ("e-", ["ef"])] ->
                         List.length c <= List.length b) /\
  (max_partition 7 [] = Raise ValueError /\ ValueError = ValueError).
Proof.
  assert (Hne : [("--", ["ab"; "cd"]); ("e-", ["ef"])] <> []) by discriminate.
  destruct (max_partition_result 7 [("--", ["ab"; "cd"]); ("e-", ["ef"])])
    as (Htot & Hkey & _).
  split; [split; [exact Hne | exact (Htot Hne)] |].
  split; [split; [reflexivity | exact (Hkey "--" eq_refl)] |].
  split; [reflexivity |].
  exact (proj2 (proj2 (proj2 (max_partition_result 7 [])) ValueError eq_refl)).
Defined.

(** X8. When the buckets of one key are larger than the buckets of every
    other key, [max_partition] returns that key whatever the random draw. *)
Theorem max_partition_unique_largest (d : PartitionMap) (p : string)
        (b : list string) :
  In (p, b) d ->
  (forall q c, In (q, c) d -> q = p \/ List.length c < List.length b) ->
  forall r, max_partition r d = Ok p.
Proof.
  intros Hin Hsmall r.
  destruct (max_partition_total r d) as [p' Hp'];
    [intros ->; contradiction |].
  rewrite Hp'. f_equal.
  apply max_partition_largest in Hp' as [b' [Hin' Hmax]].
  destruct (Hsmall p' b' Hin') as [-> | Hlt]; [reflexivity |].
  specialize (Hmax p b Hin). lia.
Qed.

Lemma max_partition_unique_largest_witness :
  max_partition 1 (partition ["bat"; "cat"; "hat"; "can"] ["t"]) = Ok "--t".
Proof.
  apply (max_partition_unique_largest
           (partition ["bat"; "cat"; "hat"; "can"] ["t"])
           "--t" ["bat"; "cat"; "hat"]).
  - simpl. auto.
  - simpl. intros q c [[= <- <-] | [[= <- <-] | []]]; simpl; auto.
Defined.

(** X9. Every key of a bucket of the largest size is returned by
    [max_partition] for some random draw: the number of letters a key shows
    excludes none of them. *)
Theorem max_partition_draws_any_largest (d : PartitionMap) (p : string)
        (b : list string) :
  In (p, b) d ->
  (forall q c, In (q, c) d -> List.length c <= List.length b) ->
  exists r, max_partition r d = Ok p.
Proof.
  intros Hin Hmax. apply max_partition_any. now exists b.
Qed.

Lemma max_partition_draws_any_largest_witness :
  exists r, max_partition r [("a-", ["ab"]); ("--", ["cd"])] = Ok "a-".
Proof.
  apply (max_partition_draws_any_largest
           [("a-", ["ab"]); ("--", ["cd"])] "a-" ["ab"]).
  - simpl. auto.
  - simpl. intros q c [[= <- <-] | [[= <- <-] | []]]; simpl; auto.
Defined.

Lemma sort_by_nil {A : Type} (key : A -> nat) (l : list A) :
  sort_by key l = [] -> l = [].
Proof.
  destruct l as [| a l]; [reflexivity |]. intros H.
  assert (Ha : In a (sort_by key (a :: l))) by (apply sort_by_In; now left).
  now rewrite H in Ha.
Qed.

Lemma sort_by_head {A : Type} (key : A -> nat) (l : list A) (x : A) :
  nth_error (sort_by key l) 0 = Some x ->
  forall y, In y l -> key x <= key y.
Proof.
  revert x. induction l as [| a l IH]; intros x Hx y Hy; [contradiction |].
  simpl in Hx. destruct (sort_by key l) as [| h t] eqn:Es.
  - apply sort_by_nil in Es. subst l. simpl in Hx. injection Hx as <-.
    destruct Hy as [<- | []]. lia.
  - specialize (IH h eq_refl). simpl in Hx.
    destruct (Nat.leb_spec (key a) (key h)) as [Hle | Hlt];
      simpl in Hx; injection Hx as <-.
    + destruct Hy as [<- | Hy]; [lia |]. specialize (IH y Hy). lia.
    + destruct Hy as [<- | Hy]; [lia | now apply IH].
Qed.

(** X10. Under the first index of the random draw [max_partition] returns,
    among the keys of the largest buckets, one with the fewest ['-']: the
    sort of line 41 is ascending in the number of placeholders. *)
Theorem max_partition_first_draw (d : PartitionMap) (p : string) :
  max_partition 0 d = Ok p ->
  forall q c,
    In (q, c) d ->
    (forall q' c', In (q', c') d -> List.length c' <= List.length c) ->
    str_count "-" p <= str_count "-" q.
Proof.
  unfold max_partition.
  destruct (Py.max _) as [m |] eqn:Em; [| discriminate].
  unfold random_choice. rewrite Nat.Div0.mod_0_l.
  destruct (nth_error _ 0) as [x |] eqn:Ex; [| discriminate].
  intros [= ->] q c Hin Hmax.
  apply (sort_by_head (fun mask => str_count "-" mask) _ p Ex).
  apply in_map_iff. exists (q, c). split; [reflexivity |].
  apply filter_In. split; [exact Hin |]. simpl. apply Nat.eqb_eq.
  apply max_spec in Em as [Hm Hle]. apply Nat.le_antisymm.
  - apply Hle, in_map_iff. now exists (q, c).
  - apply in_map_iff in Hm as [[q' c'] [<- Hin']]. simpl. eauto.
Qed.

Lemma max_partition_first_draw_witness :
  max_partition 0 [("--", ["cd"]); ("a-", ["ab"])] = Ok "a-" /\
  str_count "-" "a-" <= str_count "-" "--".
Proof.
  split; [reflexivity |].
  apply (max_partition_first_draw [("--", ["cd"]); ("a-", ["ab"])] "a-" eq_refl
                                  "--" ["cd"]).
  - simpl. auto.
  - simpl. intros q c [[= <- <-] | [[= <- <-] | []]]; simpl; auto.
Defined.

(** ** The word list *)

Lemma isspace_lower (c : ascii) : isspace_char (lower_char c) = isspace_char c.
Proof. ascii_cases c. Qed.

Lemma str_lower_nil (s : string) : str_lower s = "" <-> s = "".
Proof. destruct s; simpl; split; congruence. Qed.

Lemma lstrip_lower (s : string) : lstrip (str_lower s) = str_lower (lstrip s).
Proof.
  induction s as [| c s IH]; simpl; [reflexivity |].
  rewrite isspace_lower. now destruct (isspace_char c).
Qed.

Lemma rstrip_lower (s : string) : rstrip (str_lower s) = str_lower (rstrip s).
Proof.
  induction s as [| c s IH]; simpl; [reflexivity |].
  rewrite IH, isspace_lower.
  destruct (rstrip s) as [| d r]; simpl; [| reflexivity].
  now destruct (isspace_char c).
Qed.

Lemma strip_lower (s : string) : strip (str_lower s) = str_lower (strip s).
Proof. unfold strip. now rewrite lstrip_lower, rstrip_lower. Qed.

Lemma lstrip_shape (s : string) :
  lstrip s = "" \/
  exists c r, lstrip s = String c r /\ isspace_char c = false.
Proof.
  induction s as [| c s IH]; simpl; [now left |].
  destruct (isspace_char c) eqn:E; [exact IH |]. right. now exists c, s.
Qed.

Lemma rstrip_keeps_head (c : ascii) (s : string) :
  isspace_char c = false -> exists r, rstrip (String c s) = String c r.
Proof.
  intros H. simpl. destruct (rstrip s) as [| d r].
  - rewrite H. now exists "".
  - now exists (String d r).
Qed.

Lemma rstrip_idem (s : string) : rstrip (rstrip s) = rstrip s.
Proof.
  induction s as [| c s IH]; simpl; [reflexivity |].
  destruct (rstrip s) as [| d r] eqn:Er.
  - destruct (isspace_char c) eqn:E; simpl; [reflexivity | now rewrite E].
  - change (rstrip (String c (String d r))) with
      (match rstrip (String d r) with
       | EmptyString => if isspace_char c then "" else chr c
       | r' => String c r'
       end).
    now rewrite IH.
Qed.

Lemma strip_idem (s : string) : strip (strip s) = strip s.
Proof.
  unfold strip. destruct (lstrip_shape s) as [-> | [c [r [-> Hc]]]];
    [reflexivity |].
  destruct (rstrip_keeps_head c r Hc) as [r' Hr].
  assert (Hl : lstrip (rstrip (String c r)) = rstrip (String c r))
    by (rewrite Hr; simpl; now rewrite Hc).
  now rewrite Hl, rstrip_idem.
Qed.

(** A word as [load_words] makes them: not empty, trimmed, lowercase. *)
Lemma load_words_word (file : option (list string)) (w : string) :
  In w (load_words file) -> w <> "" /\ strip w = w /\ str_lower w = w.
Proof.
  destruct file as [lines |]; simpl; [| tauto].
  intros H. apply in_map_iff in H as [line [<- Hin]].
  apply filter_In in Hin as [_ Hnb]. apply negb_true_iff, String.eqb_neq in Hnb.
  split; [now rewrite str_lower_nil |].
  split; [now rewrite strip_lower, strip_idem | apply str_lower_idem].
Qed.

(** X11. Every word [load_words] returns is non-empty, has no whitespace
    at either end and is lowercase; there are at most as many words as
    lines; and the list is empty exactly when the file is missing or all
    its lines are blank. *)
Theorem load_words_clean (file : option (list string)) :
  (forall w, In w (load_words file) ->
             w <> "" /\ strip w = w /\ str_lower w = w) /\
  (forall lines, file = Some lines ->
                 List.length (load_words file) <= List.length lines) /\
  (load_words file = [] <->
   file = None \/
   exists lines, file = Some lines /\ forall l, In l lines -> strip l = "").
Proof.
  split; [apply load_words_word |]. split.
  - intros lines ->. simpl. rewrite length_map. apply filter_length_le.
  - destruct file as [lines |]; simpl.
    + split.
      * intros H. right. exists lines. split; [reflexivity |].
        intros l Hl. destruct (String.eqb_spec (strip l) "") as [E | E];
          [exact E |].
        assert (Hin : In (str_lower (strip l))
                         (List.map (fun line => str_lower (strip line))
                            (List.filter
                               (fun line => negb (String.eqb (strip line) ""))
                               lines))).
        { apply in_map_iff. exists l. split; [reflexivity |].
          apply filter_In. split; [exact Hl |].
          now apply negb_true_iff, String.eqb_neq. }
        now rewrite H in Hin.
      * intros [H | [lines' [[= <-] Hall]]]; [discriminate |].
        induction lines as [| l lines IH]; simpl; [reflexivity |].
        rewrite (Hall l (or_introl eq_refl)). simpl. apply IH.
        intros x Hx. apply Hall. now right.
    + split; [now left | reflexivity].
Qed.

Lemma load_words_clean_witness :
  In "hello" (load_words (Some [" Hello"; ""; "WORLD  "])) /\
  strip "hello" = "hello" /\
  List.length (load_words (Some [" Hello"; ""; "WORLD  "])) <= 3 /\
  load_words (Some [""; "   "]) = [].
Proof.
  destruct (load_words_clean (Some [" Hello"; ""; "WORLD  "]))
    as (Hw & Hlen & _).
  assert (Hin : In "hello" (load_words (Some [" Hello"; ""; "WORLD  "])))
    by (simpl; auto).
  split; [exact Hin |].
  split; [exact (proj1 (proj2 (Hw "hello" Hin))) |].
  split; [exact (Hlen _ eq_refl) |].
  apply (proj2 (load_words_clean (Some [""; "   "]))). right.
  exists [""; "   "]. split; [reflexivity |].
  intros l [<- | [<- | []]]; reflexivity.
Defined.

(** X12. Loading a loaded list again changes nothing: [load_words] keeps
    every word that is already trimmed, lowercase and non-empty, in order. *)
Theorem load_words_idempotent (file : option (list string)) :
  load_words (Some (load_words file)) = load_words file.
Proof.
  pose proof (load_words_word file) as H.
  induction (load_words file) as [| w ws IH]; [reflexivity |].
  destruct (H w (or_introl eq_refl)) as [Hne [Hs Hl]].
  change (load_words (Some (w :: ws))) with
    (List.map (fun line => str_lower (strip line))
       (List.filter (fun line => negb (String.eqb (strip line) "")) (w :: ws))).
  cbn [List.filter]. rewrite Hs.
  apply String.eqb_neq in Hne. rewrite Hne. cbn [negb List.map].
  rewrite Hs, Hl. f_equal. apply IH. intros x Hx. apply H. now right.
Qed.

(** ** Starting a round *)

Lemma set_of_list_fold_NoDup (l s : list string) :
  NoDup s -> NoDup (fold_left (fun s x => set_add x s) l s).
Proof.
  revert s. induction l as [| a l IH]; intros s Hs; simpl; [exact Hs |].
  apply IH. now apply set_add_NoDup.
Qed.

Lemma set_of_list_NoDup (l : list string) : NoDup (set_of_list l).
Proof. apply set_of_list_fold_NoDup. constructor. Qed.

Lemma set_of_list_fold_id (l s : list string) :
  NoDup (s ++ l) -> fold_left (fun s x => set_add x s) l s = (s ++ l)%list.
Proof.
  revert s. induction l as [| a l IH]; intros s Hnd; simpl.
  - now rewrite app_nil_r.
  - assert (Ha : set_add a s = (s ++ [a])%list).
    { unfold set_add. destruct (set_mem a s) eqn:E; [| reflexivity].
      apply set_mem_In in E. apply NoDup_remove_2 in Hnd.
      elim Hnd. apply in_or_app. now left. }
    rewrite Ha, IH; now rewrite <- app_assoc.
Qed.

Lemma set_of_list_id (l : list string) : NoDup l -> set_of_list l = l.
Proof. intros H. unfold set_of_list. now rewrite set_of_list_fold_id. Qed.

Lemma str_in_repeat (n : nat) :
  n <> 0 -> str_in "-" (str_repeat PLACEHOLDER n) = true.
Proof.
  intros Hn. change "-" with (chr PLACEHOLDER). rewrite str_in_chr.
  fold (placeholders (str_repeat PLACEHOLDER n)). rewrite placeholders_repeat.
  now destruct n.
Qed.

Lemma str_repeat_length (c : ascii) (n : nat) :
  String.length (str_repeat c n) = n.
Proof. induction n; simpl; congruence. Qed.

Lemma select_length_round (word_list : list string) (n : Z)
      (st : Session) (out : list Output) :
  select_length word_list (InInt n) = (LenStart st, out) ->
  RoundInv word_list (Z.to_nat (Z.abs n)) st /\
  playing st = true /\ won st = false /\ out = [].
Proof.
  intros H.
  assert (Hout : out = []).
  { revert H. simpl. destruct (n =? 0)%Z; [discriminate |].
    destruct (set_of_list _); [discriminate | now intros [= _ <-]]. }
  assert (Hnd : NoDup (words st)).
  { revert H. simpl. destruct (n =? 0)%Z; [discriminate |].
    destruct (set_of_list _) eqn:E; [discriminate |].
    intros [= <- _]. simpl. rewrite <- E. apply set_of_list_NoDup. }
  destruct (select_length_consistent _ _ _ _ H) as [[_ Hc] _].
  apply select_length_start in H as (Hn & Hne & Hw & Hg & Hr & Hh & _ & Hwon).
  split; [| split; [| split]]; trivial.
  - constructor; trivial.
    + intros w Hin. apply Hw in Hin as [Hin Hlen]. split; [exact Hin | lia].
    + rewrite Hh. apply str_repeat_length.
    + lia.
    + rewrite Hg. constructor.
    + rewrite Hg. intros g [].
  - unfold playing. rewrite Hr, Hh. simpl. apply str_in_repeat. lia.
Qed.

(** X13. A length request [n] starts a round exactly when [n] is not 0 and
    the word list has a word of length [|n|]; the round then starts with
    exactly the words of the list of that length as candidates, each once,
    no guess, five guesses left, a pattern of [|n|] placeholders, and
    nothing printed. *)
Theorem select_length_starts_iff (word_list : list string) (n : Z) :
  ((exists st out, select_length word_list (InInt n) = (LenStart st, out)) <->
   n <> 0%Z /\
   exists w, In w word_list /\ Z.of_nat (String.length w) = Z.abs n) /\
  (forall st out,
      select_length word_list (InInt n) = (LenStart st, out) ->
      (forall w, In w (words st) <->
                 In w word_list /\ Z.of_nat (String.length w) = Z.abs n) /\
      NoDup (words st) /\
      RoundInv word_list (Z.to_nat (Z.abs n)) st /\
      playing st = true /\ won st = false /\ out = [] /\
      guessed st = [] /\ remaining_guesses st = 5%Z /\
      hint st = str_repeat PLACEHOLDER (Z.to_nat (Z.abs n))).
Proof.
  split.
  - split.
    + intros [st [out H]].
      apply select_length_start in H as (Hn & Hne & Hw & _).
      split; [exact Hn |]. destruct (words st) as [| w ws]; [congruence |].
      exists w. apply Hw. now left.
    + intros [Hn [w [Hin Hlen]]]. simpl.
      destruct (Z.eqb_spec n 0) as [| _]; [contradiction |].
      destruct (set_of_list _) as [| x xs] eqn:E; [| eauto].
      exfalso.
      assert (Hw : In w (set_of_list
                           (List.filter
                              (fun word =>
                                 (Z.of_nat (String.length word) =? Z.abs n)%Z)
                              word_list))).
      { apply set_of_list_In, filter_In. split; [exact Hin |].
        now apply Z.eqb_eq. }
      now rewrite E in Hw.
  - intros st out H.
    destruct (select_length_round _ _ _ _ H) as (Hinv & Hp & Hwon & Hout).
    apply select_length_start in H as (_ & _ & Hw & Hg & Hr & Hh & _).
    split; [exact Hw |]. split; [apply Hinv |].
    now repeat (split; trivial).
Qed.

Lemma select_length_starts_iff_witness :
  (exists st out,
      select_length ["dog"; "cat"; "horse"; "dog"] (InInt (-3))
      = (LenStart st, out)) /\
  select_length ["dog"; "cat"; "horse"; "dog"] (InInt (-3))
    = (LenStart (mkSession ["dog"; "cat"] [] 5 "---" true false), []) /\
  (In "cat" (words (mkSession ["dog"; "cat"] [] 5 "---" true false)) <->
   In "cat" ["dog"; "cat"; "horse"; "dog"] /\
   Z.of_nat (String.length "cat") = Z.abs (-3)) /\
  playing (mkSession ["dog"; "cat"] [] 5 "---" true false) = true.
Proof.
  destruct (select_length_starts_iff ["dog"; "cat"; "horse"; "dog"] (-3))
    as [Hiff Hstart].
  split.
  - apply Hiff. split; [discriminate |]. exists "cat".
    split; [simpl; auto | reflexivity].
  - split; [reflexivity |].
    destruct (Hstart (mkSession ["dog"; "cat"] [] 5 "---" true false)
                     [] eq_refl) as (Hw & _ & _ & Hp & _).
    split; [apply Hw | exact Hp].
Defined.

(** ** A round in play *)

Lemma guess_is_letter (line : string) :
  isalpha (guess_of line) = true -> String.length (guess_of line) = 1 ->
  letter (guess_of line).
Proof.
  intros Ha Hl. repeat split; trivial. apply str_lower_idem.
Qed.

Lemma play_step_round (word_list : list string) (L : nat)
      (st : Session) (line : string) (r : nat)
      (st' : Session) (out : list Output) :
  RoundInv word_list L st -> playing st = true ->
  play_step st line r = Accepted st' out ->
  RoundInv word_list L st'.
Proof.
  intros Hinv Hplay Hstep.
  destruct (play_step_words _ _ _ _ _ Hstep) as [Hne Hw].
  apply play_step_accepted in Hstep.
  destruct Hstep as (Ha & Hl & Hg & Hsel & Hws & HG & Hrem & _).
  destruct (selected_bucket _ _ _ _ Hsel) as (Hin & _ & _).
  rewrite <- Hws in Hin.
  destruct (PartInv_bucket _ _ _ _ (partition_inv _ _) Hin) as (_ & Hnd & _).
  unfold playing in Hplay. apply andb_true_iff in Hplay as [Hpos _].
  apply Z.ltb_lt in Hpos. destruct Hinv.
  constructor; trivial.
  - intros w Hin'. apply inv_words_listed0. now apply Hw.
  - intros w Hin'. now apply Hw.
  - destruct (words st') as [| w ws]; [congruence |].
    destruct (Hw w (or_introl eq_refl)) as [Hold Hm].
    rewrite <- Hm, mask_word_length. now apply inv_words_listed0.
  - rewrite Hrem. destruct (str_in _ _); lia.
  - rewrite HG. now apply set_add_NoDup.
  - rewrite HG. intros g Hin'. apply set_add_In in Hin' as [-> | Hin'].
    + now apply guess_is_letter.
    + now apply inv_guessed_letters0.
Qed.

Lemma play_loop_round (word_list : list string) (L : nat)
      (inputs : list string) (rng : nat -> nat) :
  forall (st : Session) (k : nat),
    RoundInv word_list L st ->
    RoundInv word_list L (final (play_loop st inputs rng k)).
Proof.
  induction inputs as [| line rest IH]; intros st k Hinv; simpl;
    destruct (playing st) eqn:Ep; rewrite ?finish_final; trivial.
  destruct (play_step st line (rng k)) as [out | st' out | e out] eqn:Es;
    simpl; [now apply IH | | exact Hinv].
  pose proof (play_step_round _ _ _ _ _ _ _ Hinv Ep Es) as Hinv'.
  destruct (negb _); simpl; [now rewrite finish_final | now apply IH].
Qed.

(** X14. Throughout a round started by a length request [n]: the
    candidate set is not empty, the candidates are distinct words of the
    word list of length [|n|], each is masked to the current pattern, the
    pattern has length [|n|], the remaining guesses stay between 0 and 5,
    and the guess set holds distinct single lowercase letters. *)
Theorem round_invariant (word_list : list string) (n : Z) (st : Session)
        (out : list Output) (inputs : list string) (rng : nat -> nat) :
  select_length word_list (InInt n) = (LenStart st, out) ->
  RoundInv word_list (Z.to_nat (Z.abs n)) (final (play_loop st inputs rng 0)).
Proof.
  intros H. apply play_loop_round. now apply select_length_round in H.
Qed.

Lemma round_invariant_witness :
  RoundInv ["dog"; "cat"; "horse"] 3
           (final (play_loop (mkSession ["dog"; "cat"] [] 5 "---" false false)
                             ["z"; "o"; "Q"] (fun _ => 1) 0)).
Proof.
  exact (round_invariant ["dog"; "cat"; "horse"] 3%Z
                         (mkSession ["dog"; "cat"] [] 5 "---" false false) []
                         ["z"; "o"; "Q"] (fun _ => 1) eq_refl).
Defined.

(** ** Hits, misses and the pattern *)

Lemma mask_add_absent (w : string) (G : list string) (c : ascii) :
  str_count c (mask_word w (set_add (chr c) G)) = 0 ->
  mask_word w (set_add (chr c) G) = mask_word w G.
Proof.
  induction w as [| d w IH]; [reflexivity |].
  rewrite !mask_word_cons. cbn [str_count]. unfold mask_char.
  rewrite set_mem_add, chr_eqb. intros H.
  assert (Hw : str_count c (mask_word w (set_add (chr c) G)) = 0) by lia.
  rewrite (IH Hw). f_equal.
  destruct (Ascii.eqb_spec d c) as [-> | Hdc]; simpl; [| reflexivity].
  simpl in H. rewrite Ascii.eqb_refl in H. discriminate H.
Qed.

Lemma mask_shows_guess (w : string) (G : list string) (c : ascii) :
  c <> PLACEHOLDER ->
  str_count c (mask_word w (set_add (chr c) G)) = str_count c w.
Proof.
  intros Hc. induction w as [| d w IH]; [reflexivity |].
  rewrite mask_word_cons. cbn [str_count]. rewrite IH. f_equal.
  unfold mask_char. rewrite set_mem_add, chr_eqb.
  destruct (Ascii.eqb_spec d c) as [-> | Hdc]; simpl;
    [now rewrite ?Ascii.eqb_refl |].
  destruct (set_mem (chr d) G).
  - destruct (Ascii.eqb_spec d c); [contradiction | reflexivity].
  - destruct (Ascii.eqb_spec PLACEHOLDER c); [congruence | reflexivity].
Qed.

Lemma mask_no_placeholder (w : string) (g : list string) :
  str_in "-" (mask_word w g) = false -> mask_word w g = w.
Proof.
  change "-" with (chr PLACEHOLDER). rewrite str_in_chr.
  intros H. apply negb_false_iff, Nat.eqb_eq in H.
  induction w as [| d w IH]; [reflexivity |].
  rewrite mask_word_cons in *. cbn [str_count] in H.
  rewrite IH by lia. f_equal. unfold mask_char in *.
  destruct (set_mem (chr d) g); [reflexivity |].
  rewrite Ascii.eqb_refl in H. discriminate H.
Qed.

Lemma In_prompt_output (st : Session) (o : Output) :
  In o (prompt_output st) -> is_detail o = true \/
  o = PrintRemaining (remaining_guesses st) \/
  o = PrintGuessed (guessed st) \/ o = PrintHint (hint st).
Proof.
  unfold prompt_output. destruct (show_details st); simpl;
    intuition (subst; simpl; auto).
Qed.

Lemma In_partitions_output (st : Session) (d : PartitionMap) (o : Output) :
  In o (partitions_output st d) -> is_detail o = true.
Proof.
  unfold partitions_output. destruct (show_details st); [| intros []].
  intros [<- | H]; [reflexivity |].
  apply in_map_iff in H as [kv [<- _]]. reflexivity.
Qed.

(** X15. In a state whose candidates are all masked to the current
    pattern, an accepted guess is a miss exactly when the pattern stays as
    it was, and the message that the guess "did not change the word" is
    printed exactly on a miss: a hit always changes the pattern. *)
Theorem no_change_iff_miss (st : Session) (line : string) (r : nat)
        (st' : Session) (out : list Output) :
  Consistent st -> play_step st line r = Accepted st' out ->
  (str_in (guess_of line) (hint st') = false <-> hint st' = hint st) /\
  (In (PrintNoChange (guess_of line)) out <->
   In (PrintMiss (guess_of line)) out) /\
  (In (PrintMiss (guess_of line)) out <->
   str_in (guess_of line) (hint st') = false).
Proof.
  intros Hc Hstep.
  destruct (play_step_progress _ _ _ _ _ Hc Hstep) as (_ & _ & Hhit & _).
  destruct (play_step_words _ _ _ _ _ Hstep) as [Hne Hw].
  pose proof (play_step_accepted _ _ _ _ _ Hstep)
    as (Ha & Hl & _ & _ & _ & HG & _ & _ & _ & Hout).
  destruct (single_letter _ Ha Hl) as [c [Ec _]].
  assert (Hmiss : str_in (guess_of line) (hint st') = false <->
                  hint st' = hint st).
  { split.
    - intros Hm. rewrite Ec, str_in_chr in Hm.
      apply negb_false_iff, Nat.eqb_eq in Hm.
      destruct (words st') as [| w ws]; [congruence |].
      destruct (Hw w (or_introl eq_refl)) as [Hin Hnew].
      rewrite <- (proj2 Hc w Hin), <- Hnew, HG, Ec.
      apply mask_add_absent. rewrite <- Ec, <- HG, Hnew. exact Hm.
    - intros He. destruct (str_in (guess_of line) (hint st')); [| reflexivity].
      specialize (Hhit eq_refl). rewrite He in Hhit. lia. }
  assert (Hmsg : In (PrintMiss (guess_of line)) out <->
                 str_in (guess_of line) (hint st') = false).
  { rewrite Hout, !in_app_iff. split.
    - intros [H | [H | [H | [H | H]]]].
      + apply In_prompt_output in H as [H | [H | [H | H]]]; discriminate.
      + apply In_partitions_output in H. discriminate.
      + destruct (str_in (guess_of line) (hint st')); [| reflexivity].
        destruct H as [H | []]. discriminate.
      + destruct (String.eqb _ _); [destruct H as [H | []]; discriminate |
                                    destruct H].
      + destruct (str_in "-" (hint st')); [destruct H |
                                           destruct H as [H | []]; discriminate].
    - intros ->. right. right. left. now left. }
  split; [exact Hmiss |]. split; [| exact Hmsg].
  rewrite Hmsg, Hmiss, Hout, !in_app_iff. split.
  - intros [H | [H | [H | [H | H]]]].
    + apply In_prompt_output in H as [H | [H | [H | H]]]; discriminate.
    + apply In_partitions_output in H. discriminate.
    + destruct (str_in _ _); destruct H as [H | []]; discriminate.
    + destruct (String.eqb_spec (hint st) (hint st')); [congruence | destruct H].
    + destruct (str_in "-" (hint st')); [destruct H |
                                         destruct H as [H | []]; discriminate].
  - intros He. right. right. right. left.
    rewrite He, String.eqb_refl. now left.
Qed.

Lemma no_change_iff_miss_witness :
  let st := mkSession ["dog"; "cat"] [] 5 "---" false false in
  let st' := mkSession ["dog"; "cat"] ["z"] 4 "---" false false in
  let out := [PrintRemaining 5; PrintGuessed []; PrintHint "---";
              PrintMiss "z"; PrintNoChange "z"] in
  Consistent st /\ play_step st "z" 0 = Accepted st' out /\
  (In (PrintNoChange (guess_of "z")) out <-> In (PrintMiss (guess_of "z")) out).
Proof.
  intros st st' out.
  assert (Hc : Consistent st).
  { split; [discriminate |]. intros w [<- | [<- | []]]; reflexivity. }
  split; [exact Hc |]. split; [reflexivity |].
  exact (proj1 (proj2 (no_change_iff_miss st "z" 0 st' out Hc eq_refl))).
Defined.

(** ** What the adversary keeps *)

Lemma partition_same_pattern (g : list string) (p : string) (ws : list string) :
  ws <> [] -> NoDup ws -> (forall w, In w ws -> mask_word w g = p) ->
  partition ws g = [(p, ws)].
Proof.
  intros Hne Hnd Hm. destruct ws as [| w ws]; [congruence |].
  unfold partition. simpl. change (set_add w []) with [w].
  rewrite (Hm w (or_introl eq_refl)).
  apply (partition_one_pattern g p ws [w]); [| exact Hnd].
  intros x Hx. apply Hm. now right.
Qed.

Lemma max_partition_single (r : nat) (p : string) (b : list string) :
  max_partition r [(p, b)] = Ok p.
Proof.
  unfold max_partition. cbn [List.map Py.max fold_left snd List.filter].
  rewrite Nat.eqb_refl. cbn [List.map fst sort_by insert_by].
  unfold random_choice. cbn [List.length]. now rewrite Nat.mod_1_r.
Qed.

Lemma letter_count (g : string) (c : ascii) (s : string) :
  g = chr c -> (str_in g s = false <-> str_count c s = 0).
Proof.
  intros ->. rewrite str_in_chr, negb_false_iff. apply Nat.eqb_eq.
Qed.

(** X16. In a round whose candidates are distinct and all masked to the
    current pattern, an accepted guess of a letter that no candidate
    contains is a miss that leaves the candidate set and the pattern as
    they are, whatever the random draw. *)
Theorem absent_letter_is_miss (st : Session) (line : string) (r : nat)
        (st' : Session) (out : list Output) :
  Consistent st -> NoDup (words st) ->
  play_step st line r = Accepted st' out ->
  (forall w, In w (words st) -> str_in (guess_of line) w = false) ->
  words st' = words st /\ hint st' = hint st /\
  remaining_guesses st' = (remaining_guesses st - 1)%Z.
Proof.
  intros [Hne Hc] Hnd Hstep Habs.
  apply play_step_accepted in Hstep.
  destruct Hstep as (Ha & Hl & _ & Hsel & Hws & _ & Hrem & _).
  destruct (single_letter _ Ha Hl) as [c [Ec Halpha]].
  apply alpha_not_placeholder in Halpha.
  assert (Hsame : forall w, In w (words st) ->
            mask_word w (set_add (guess_of line) (guessed st)) = hint st).
  { intros w Hw. rewrite <- (Hc w Hw), Ec. apply mask_add_absent.
    rewrite mask_shows_guess by exact Halpha.
    apply (letter_count _ c w Ec). now apply Habs. }
  rewrite (partition_same_pattern _ (hint st) (words st) Hne Hnd Hsame) in *.
  rewrite max_partition_single in Hsel. injection Hsel as Hh.
  rewrite <- Hh in *. simpl in Hws. rewrite String.eqb_refl in Hws.
  split; [exact Hws |]. split; [reflexivity |].
  rewrite Hrem.
  destruct (words st) as [| w ws] eqn:Ew; [congruence |].
  assert (Hmiss : str_in (guess_of line) (hint st) = false).
  { apply (letter_count _ c _ Ec).
    rewrite <- (Hsame w (or_introl eq_refl)), Ec.
    rewrite mask_shows_guess by exact Halpha.
    apply (letter_count _ c w Ec). apply Habs. now left. }
  now rewrite Hmiss.
Qed.

Lemma absent_letter_is_miss_witness :
  let st := mkSession ["dog"; "cat"] [] 5 "---" false false in
  let st' := mkSession ["dog"; "cat"] ["z"] 4 "---" false false in
  play_step st "z" 3 =
    Accepted st' [PrintRemaining 5; PrintGuessed []; PrintHint "---";
                  PrintMiss "z"; PrintNoChange "z"] /\
  words st' = words st /\ hint st' = hint st.
Proof.
  intros st st'. split; [reflexivity |].
  assert (Hc : Consistent st).
  { split; [discriminate |]. intros w [<- | [<- | []]]; reflexivity. }
  assert (Hnd : NoDup (words st)).
  { repeat constructor; simpl; intuition discriminate. }
  destruct (absent_letter_is_miss st "z" 3 st' _ Hc Hnd eq_refl) as (H1 & H2 & _).
  - intros w [<- | [<- | []]]; reflexivity.
  - now split.
Defined.

(** X17. With one candidate [w] left the game is plain hangman on [w]: an
    accepted guess keeps [w], shows the mask of [w], and is a hit exactly
    when the letter occurs in [w], whatever the random draw. *)
Theorem single_candidate_is_plain_hangman (st : Session) (line : string)
        (r : nat) (st' : Session) (out : list Output) (w : string) :
  words st = [w] -> play_step st line r = Accepted st' out ->
  words st' = [w] /\
  hint st' = mask_word w (guessed st') /\
  str_in (guess_of line) (hint st') = str_in (guess_of line) w /\
  remaining_guesses st' =
    (if str_in (guess_of line) w
     then remaining_guesses st else remaining_guesses st - 1)%Z.
Proof.
  intros Hw Hstep. apply play_step_accepted in Hstep.
  destruct Hstep as (Ha & Hl & _ & Hsel & Hws & HG & Hrem & _).
  destruct (single_letter _ Ha Hl) as [c [Ec Halpha]].
  apply alpha_not_placeholder in Halpha.
  rewrite Hw in Hsel, Hws.
  change (partition [w] (set_add (guess_of line) (guessed st)))
    with [(mask_word w (set_add (guess_of line) (guessed st)), [w])] in *.
  rewrite max_partition_single in Hsel. injection Hsel as Hh.
  rewrite <- Hh in Hws. simpl in Hws. rewrite String.eqb_refl in Hws.
  assert (Hin : str_in (guess_of line) (hint st') = str_in (guess_of line) w).
  { rewrite <- Hh, Ec, !str_in_chr.
    now rewrite mask_shows_guess by exact Halpha. }
  split; [exact Hws |]. split; [now rewrite HG |].
  split; [exact Hin |]. now rewrite Hrem, Hin.
Qed.

Lemma single_candidate_is_plain_hangman_witness :
  let st := mkSession ["cat"] ["z"] 4 "---" false false in
  let st' := mkSession ["cat"] ["z"; "c"] 4 "c--" false false in
  play_step st "C" 9 =
    Accepted st' [PrintRemaining 4; PrintGuessed ["z"]; PrintHint "---";
                  PrintHit "c"] /\
  hint st' = mask_word "cat" (guessed st').
Proof.
  intros st st'. split; [reflexivity |].
  exact (proj1 (proj2 (single_candidate_is_plain_hangman st "C" 9 st' _ "cat"
                         eq_refl eq_refl))).
Defined.

(** X18. After an accepted guess the candidate set is at least as large
    as the set of candidates of any one pattern: no answer would have kept
    more words. *)
Theorem adversary_keeps_a_largest_bucket (st : Session) (line : string)
        (r : nat) (st' : Session) (out : list Output) :
  NoDup (words st) -> play_step st line r = Accepted st' out ->
  forall p,
    List.length
      (List.filter (fun w => String.eqb (mask_word w (guessed st')) p)
                   (words st))
    <= List.length (words st').
Proof.
  intros Hnd Hstep p. apply play_step_accepted in Hstep.
  destruct Hstep as (_ & _ & _ & Hsel & Hws & HG & _).
  rewrite HG. set (g := set_add (guess_of line) (guessed st)) in *.
  pose proof (partition_inv (words st) g) as Hinv.
  apply max_partition_largest in Hsel as [b [Hin Hmax]].
  rewrite (PartInv_dict_get g _ _ _ Hinv Hin) in Hws. rewrite Hws.
  assert (Hp : dict_get (partition (words st) g) p =
               List.filter (fun w => String.eqb (mask_word w g) p) (words st)).
  { unfold partition. rewrite dict_get_fold. simpl.
    apply set_of_list_id. now apply NoDup_filter. }
  rewrite <- Hp.
  destruct (dict_mem (partition (words st) g) p) eqn:Em.
  - apply dict_mem_In, dict_get_In in Em. now apply (Hmax p).
  - rewrite (dict_get_missing _ _ Em). simpl. lia.
Qed.

Lemma adversary_keeps_a_largest_bucket_witness :
  let st := mkSession ["bat"; "cat"; "hat"; "can"] [] 5 "---" false false in
  let st' := mkSession ["bat"; "cat"; "hat"] ["t"] 5 "--t" false false in
  play_step st "t" 0 =
    Accepted st' [PrintRemaining 5; PrintGuessed []; PrintHint "---";
                  PrintHit "t"] /\
  List.length
    (List.filter (fun w => String.eqb (mask_word w (guessed st')) "---")
                 (words st))
  <= List.length (words st').
Proof.
  intros st st'. split; [reflexivity |].
  apply (adversary_keeps_a_largest_bucket st "t" 0 st'
           [PrintRemaining 5; PrintGuessed []; PrintHint "---"; PrintHit "t"]).
  - repeat constructor; simpl; intuition discriminate.
  - reflexivity.
Defined.

(** ** How a round ends *)

Lemma finish_won (st : Session) (r : nat) :
  won st = true -> finish st r = mkRun st Won [].
Proof. intros H. unfold finish. now rewrite H. Qed.

Lemma finish_lost (st : Session) (r : nat) :
  won st = false -> words st <> [] ->
  exists w, In w (words st) /\ finish st r = mkRun st (Lost w) [PrintLost w].
Proof.
  intros H Hne. unfold finish. rewrite H. simpl.
  destruct (random_choice_total r (words st) Hne) as [w Hw]. rewrite Hw.
  exists w. split; [now apply random_choice_In in Hw | reflexivity].
Qed.

Lemma miss_keeps_hint (st : Session) (line : string) (r : nat)
      (st' : Session) (out : list Output) :
  Consistent st -> play_step st line r = Accepted st' out ->
  str_in (guess_of line) (hint st') = false -> hint st' = hint st.
Proof.
  intros Hc Hstep Hm.
  destruct (play_step_words _ _ _ _ _ Hstep) as [Hne Hw].
  apply play_step_accepted in Hstep.
  destruct Hstep as (Ha & Hl & _ & _ & _ & HG & _).
  destruct (single_letter _ Ha Hl) as [c [Ec _]].
  apply (letter_count _ c _ Ec) in Hm.
  destruct (words st') as [| w ws]; [congruence |].
  destruct (Hw w (or_introl eq_refl)) as [Hin Hnew].
  rewrite <- (proj2 Hc w Hin), <- Hnew, HG, Ec.
  apply mask_add_absent. now rewrite <- Ec, <- HG, Hnew.
Qed.

Lemma RoundInv_Consistent (word_list : list string) (L : nat) (st : Session) :
  RoundInv word_list L st -> Consistent st.
Proof. intros []. now split. Qed.

Lemma play_loop_outcome (word_list : list string) (L : nat)
      (inputs : list string) (rng : nat -> nat) :
  forall (st : Session) (k : nat),
    RoundInv word_list L st -> won st = false ->
    str_in "-" (hint st) = true ->
    match status (play_loop st inputs rng k) with
    | AwaitingInput => playing (final (play_loop st inputs rng k)) = true
    | Won =>
        str_in "-" (hint (final (play_loop st inputs rng k))) = false /\
        (0 < remaining_guesses (final (play_loop st inputs rng k)))%Z
    | Lost w =>
        In w (words (final (play_loop st inputs rng k))) /\
        remaining_guesses (final (play_loop st inputs rng k)) = 0%Z /\
        str_in "-" (hint (final (play_loop st inputs rng k))) = true
    | Failed _ => False
    end.
Proof.
  assert (Hend : forall st r,
            RoundInv word_list L st -> won st = false ->
            str_in "-" (hint st) = true -> playing st = false ->
            match status (finish st r) with
            | AwaitingInput => playing (final (finish st r)) = true
            | Won => str_in "-" (hint (final (finish st r))) = false /\
                     (0 < remaining_guesses (final (finish st r)))%Z
            | Lost w => In w (words (final (finish st r))) /\
                        remaining_guesses (final (finish st r)) = 0%Z /\
                        str_in "-" (hint (final (finish st r))) = true
            | Failed _ => False
            end).
  { intros st r Hinv Hwon Hdash Hp.
    destruct (finish_lost st r Hwon (inv_words_nonempty _ _ _ Hinv))
      as [w [Hin ->]]. simpl.
    unfold playing in Hp. rewrite Hdash, andb_true_r in Hp.
    apply Z.ltb_ge in Hp. pose proof (inv_remaining _ _ _ Hinv).
    repeat split; trivial. lia. }
  induction inputs as [| line rest IH]; intros st k Hinv Hwon Hdash; simpl;
    destruct (playing st) eqn:Ep; try (now apply Hend); [exact Ep |].
  destruct (play_step st line (rng k)) as [out | st' out | e out] eqn:Es.
  - simpl. now apply IH.
  - pose proof (play_step_round _ _ _ _ _ _ _ Hinv Ep Es) as Hinv'.
    pose proof (miss_keeps_hint _ _ _ _ _ (RoundInv_Consistent _ _ _ Hinv) Es)
      as Hmiss.
    pose proof (play_step_accepted _ _ _ _ _ Es)
      as (_ & _ & _ & _ & _ & _ & Hrem & _ & Hw' & _).
    destruct (str_in "-" (hint st')) eqn:Ed; simpl.
    + apply IH; trivial. now rewrite Hw'.
    + rewrite (finish_won st' _ Hw'). simpl. split; [exact Ed |].
      unfold playing in Ep. apply andb_true_iff in Ep as [Ep _].
      apply Z.ltb_lt in Ep. rewrite Hrem.
      destruct (str_in (guess_of line) (hint st')); [exact Ep |].
      rewrite (Hmiss eq_refl) in Ed. congruence.
  - now apply play_step_no_crash in Es; [| apply Hinv].
Qed.

Lemma play_step_misses (st : Session) (line : string) (r : nat) :
  match play_step st line r with
  | Rejected out => misses out = 0
  | Accepted st' out =>
      (Z.of_nat (misses out) + remaining_guesses st' = remaining_guesses st)%Z
  | Crashed _ out => misses out = 0
  end.
Proof.
  assert (Hp : forall l, misses (prompt_output st ++ l) = misses l).
  { intros l. unfold misses, prompt_output. rewrite filter_app.
    now destruct (show_details st). }
  assert (Hd : forall d l, misses (partitions_output st d ++ l) = misses l).
  { intros d l. unfold misses, partitions_output. rewrite filter_app.
    destruct (show_details st); [| reflexivity]. simpl.
    induction d as [| kv d IH]; simpl; auto. }
  destruct (play_step st line r) as [out | st' out | e out] eqn:Es.
  - revert Es. unfold play_step.
    destruct (negb _ || negb _);
      [intros E; replace out with (prompt_output st ++ [PrintNotSingleLetter])%list
         by congruence; now rewrite Hp |].
    destruct (set_mem _ _);
      [intros E;
       replace out
         with (prompt_output st ++ [PrintAlreadyGuessed (str_lower line)])%list
         by congruence; now rewrite Hp |].
    destruct (max_partition _ _); [| discriminate].
    destruct (negb _); discriminate.
  - apply play_step_accepted in Es.
    destruct Es as (_ & _ & _ & _ & _ & _ & -> & _ & _ & ->).
    rewrite Hp, Hd.
    destruct (str_in (guess_of line) (hint st')),
             (String.eqb (hint st) (hint st')),
             (str_in "-" (hint st')); unfold misses;
      cbn -[Z.add Z.sub Z.of_nat]; lia.
  - revert Es. unfold play_step.
    destruct (negb _ || negb _); [discriminate |].
    destruct (set_mem _ _); [discriminate |].
    destruct (max_partition _ _); [destruct (negb _); discriminate |].
    intros E.
    match type of E with
    | Crashed _ ?o = _ => replace out with o by congruence
    end.
    rewrite Hp. rewrite <- (app_nil_r (partitions_output st _)). now rewrite Hd.
Qed.

Lemma misses_app (o1 o2 : list Output) :
  misses (o1 ++ o2) = misses o1 + misses o2.
Proof. unfold misses. now rewrite filter_app, length_app. Qed.

Lemma finish_misses (st : Session) (r : nat) : misses (output (finish st r)) = 0.
Proof.
  unfold finish. destruct (won st); simpl; [reflexivity |].
  now destruct (random_choice r (words st)).
Qed.

Lemma play_loop_misses (inputs : list string) (rng : nat -> nat) :
  forall (st : Session) (k : nat),
    (Z.of_nat (misses (output (play_loop st inputs rng k)))
     + remaining_guesses (final (play_loop st inputs rng k))
     = remaining_guesses st)%Z.
Proof.
  induction inputs as [| line rest IH]; intros st k; simpl;
    destruct (playing st); rewrite ?finish_misses, ?finish_final; simpl;
    try lia.
  pose proof (play_step_misses st line (rng k)) as Hm.
  destruct (play_step st line (rng k)) as [out | st' out | e out]; simpl.
  - rewrite misses_app, Hm. apply IH.
  - destruct (negb _); simpl; rewrite misses_app.
    + rewrite finish_misses, finish_final. lia.
    + specialize (IH st' (S k)). lia.
  - rewrite Hm. lia.
Qed.

(** X19. The miss messages of the main loop account for the guesses
    spent: from any state and on any input, the number of misses printed
    plus the remaining guesses at the end is the remaining guesses at the
    start. *)
Theorem misses_are_counted (st : Session) (inputs : list string)
        (rng : nat -> nat) (k : nat) :
  (Z.of_nat (misses (output (play_loop st inputs rng k)))
   + remaining_guesses (final (play_loop st inputs rng k))
   = remaining_guesses st)%Z.
Proof. apply play_loop_misses. Qed.

Lemma all_same_singleton (l : list string) (h : string) :
  l <> [] -> NoDup l -> (forall x, In x l -> x = h) -> l = [h].
Proof.
  intros Hne Hnd Hall. destruct l as [| a [| b l]]; [congruence | |].
  - now rewrite (Hall a (or_introl eq_refl)).
  - exfalso. inversion Hnd as [| ? ? Hnot _]; subst. apply Hnot.
    rewrite (Hall a), (Hall b); simpl; auto.
Qed.

(** X20. How a round started by a length request [n] ends. If it is lost,
    the word revealed is a candidate, a word of the word list of length
    [|n|] that is masked to the final pattern; no guess remains, the
    pattern still has a placeholder and exactly five misses were printed.
    If it is won, the pattern has no placeholder, it is itself the only
    candidate and a word of the word list, and a guess remains. Otherwise
    the loop is waiting for a letter. *)
Theorem round_outcome (word_list : list string) (n : Z) (st : Session)
        (out : list Output) (inputs : list string) (rng : nat -> nat) :
  select_length word_list (InInt n) = (LenStart st, out) ->
  (forall w,
      status (play_loop st inputs rng 0) = Lost w ->
      In w (words (final (play_loop st inputs rng 0))) /\
      In w word_list /\
      Z.of_nat (String.length w) = Z.abs n /\
      mask_word w (guessed (final (play_loop st inputs rng 0)))
      = hint (final (play_loop st inputs rng 0)) /\
      remaining_guesses (final (play_loop st inputs rng 0)) = 0%Z /\
      str_in "-" (hint (final (play_loop st inputs rng 0))) = true /\
      misses (output (play_loop st inputs rng 0)) = 5) /\
  (status (play_loop st inputs rng 0) = Won ->
   str_in "-" (hint (final (play_loop st inputs rng 0))) = false /\
   words (final (play_loop st inputs rng 0))
   = [hint (final (play_loop st inputs rng 0))] /\
   In (hint (final (play_loop st inputs rng 0))) word_list /\
   (0 < remaining_guesses (final (play_loop st inputs rng 0)))%Z) /\
  (status (play_loop st inputs rng 0) = AwaitingInput \/
   status (play_loop st inputs rng 0) = Won \/
   exists w, status (play_loop st inputs rng 0) = Lost w).
Proof.
  intros H.
  pose proof (select_length_start _ _ _ _ H) as (_ & _ & _ & _ & Hr & _).
  destruct (select_length_round _ _ _ _ H) as (Hinv & Hp & Hwon & _).
  assert (Hdash : str_in "-" (hint st) = true)
    by (unfold playing in Hp; now apply andb_true_iff in Hp).
  pose proof (play_loop_round _ _ inputs rng st 0 Hinv) as Hfin.
  pose proof (play_loop_outcome _ _ inputs rng st 0 Hinv Hwon Hdash) as Hout.
  pose proof (play_loop_misses inputs rng st 0) as Hm.
  destruct Hfin.
  split; [| split].
  - intros w Hs. rewrite Hs in Hout. destruct Hout as (Hin & Hz & Hd).
    destruct (inv_words_listed0 w Hin) as [Hl Hlen].
    repeat split; trivial; try lia. now apply inv_consistent0.
  - intros Hs. rewrite Hs in Hout. destruct Hout as [Hd Hpos].
    assert (Hw : words (final (play_loop st inputs rng 0))
                 = [hint (final (play_loop st inputs rng 0))]).
    { apply all_same_singleton; trivial. intros x Hx.
      rewrite <- (inv_consistent0 x Hx) in Hd |- *.
      symmetry. now apply mask_no_placeholder. }
    repeat split; trivial.
    apply inv_words_listed0. rewrite Hw. now left.
  - destruct (status (play_loop st inputs rng 0)) as [| | w | e];
      [now left | right; now left | right; right; now exists w | contradiction].
Qed.

Lemma round_outcome_witness :
  let st := mkSession ["dog"; "cat"] [] 5 "---" false false in
  (status (play_loop st ["z"; "x"; "o"; "q"; "w"; "v"] (fun _ => 1) 0)
     = Lost "cat" /\
   In "cat" ["dog"; "cat"; "horse"] /\
   misses (output (play_loop st ["z"; "x"; "o"; "q"; "w"; "v"] (fun _ => 1) 0))
     = 5) /\
  (status (play_loop st ["o"; "d"; "g"] (fun _ => 0) 0) = Won /\
   words (final (play_loop st ["o"; "d"; "g"] (fun _ => 0) 0))
     = [hint (final (play_loop st ["o"; "d"; "g"] (fun _ => 0) 0))]).
Proof.
  intros st.
  destruct (round_outcome ["dog"; "cat"; "horse"] 3%Z st []
                          ["z"; "x"; "o"; "q"; "w"; "v"] (fun _ => 1) eq_refl)
    as (Hlost & _).
  destruct (Hlost "cat" eq_refl) as (_ & Hin & _ & _ & _ & _ & Hm).
  destruct (round_outcome ["dog"; "cat"; "horse"] 3%Z st []
                          ["o"; "d"; "g"] (fun _ => 0) eq_refl)
    as (_ & Hwon & _).
  destruct (Hwon eq_refl) as (_ & Hw & _).
  split; [split; [reflexivity | now split] |].
  split; [reflexivity | exact Hw].
Defined.

(** ** The program *)

Lemma after_loop_phase (st : Session) (rng : nat -> nat) (k : nat) :
  words st <> [] ->
  exists k', fst (after_loop st rng k) = mkMachine AtReplay k'.
Proof.
  intros Hne. unfold after_loop. simpl.
  destruct (finish_status st (rng k) Hne) as [_ [-> | [w [_ ->]]]]; eauto.
Qed.

Lemma loop_top_ok (st : Session) (rng : nat -> nat) (k : nat) :
  words st <> [] -> phase_ok (phase (fst (loop_top st rng k))).
Proof.
  intros Hne. unfold loop_top. destruct (playing st) eqn:Ep; [simpl; auto |].
  destruct (after_loop_phase st rng k Hne) as [k' ->]. exact I.
Qed.

Lemma hangman_step_ok (word_list : list string) (int : string -> option Z)
      (rng : nat -> nat) (m : Machine) (line : string) :
  phase_ok (phase m) ->
  phase_ok (phase (fst (hangman_step word_list int rng m line))).
Proof.
  unfold hangman_step. destruct (phase m) as [| st | | | e] eqn:Em;
    try (simpl; now rewrite Em).
  - intros _.
    destruct (select_length word_list (parse_length int line))
      as [[| | st] out] eqn:E; simpl; trivial.
    unfold and_then. cbn [fst]. apply loop_top_ok.
    destruct (parse_length int line) as [| | n]; simpl in E; try discriminate.
    now apply select_length_start in E.
  - intros [Hne Hp].
    destruct (play_step st line (rng (draws m))) as [out | st' out | e out] eqn:Es;
      simpl; [now apply loop_top_ok | |].
    + apply play_step_words in Es as [Hne' _].
      unfold and_then. cbn [fst].
      destruct (negb _); [| now apply loop_top_ok].
      destruct (after_loop_phase st' rng (S (draws m)) Hne') as [k' ->].
      exact I.
    + now apply play_step_no_crash in Es.
  - intros _. destruct (negb _); simpl; trivial.
    destruct (String.eqb _ _); simpl; trivial.
Qed.

Lemma run_hangman_ok (word_list : list string) (int : string -> option Z)
      (rng : nat -> nat) (inputs : list string) :
  forall m, phase_ok (phase m) ->
            phase_ok (phase (fst (run_hangman word_list int rng m inputs))).
Proof.
  induction inputs as [| line rest IH]; intros m Hm; simpl; [exact Hm |].
  apply IH. now apply hangman_step_ok.
Qed.

(** X21. Whatever the file holds and whatever is typed, no exception of
    [max] or [random.choice] leaves [play_hangman], and whenever it waits
    for a letter the candidate set is not empty and the loop condition
    holds. *)
Theorem play_hangman_never_raises (int : string -> option Z)
        (file : option (list string)) (inputs : list string)
        (rng : nat -> nat) :
  phase_ok (phase (fst (play_hangman int file inputs rng))).
Proof.
  unfold play_hangman. destruct (load_words file); simpl; [exact I |].
  now apply run_hangman_ok.
Qed.

Lemma hangman_step_returned (word_list : list string)
      (int : string -> option Z) (rng : nat -> nat) (m : Machine)
      (line : string) :
  phase (fst (hangman_step word_list int rng m line)) = Returned ->
  phase m = Returned \/ ends_program line = true.
Proof.
  unfold hangman_step, ends_program.
  destruct (phase m) as [| st | | | e] eqn:Em; simpl; auto.
  - unfold parse_length.
    destruct (String.eqb (str_lower line) "quit"); [auto |].
    destruct (int line) as [n |]; [| discriminate].
    destruct (select_length word_list (InInt n)) as [[| | st] out] eqn:E;
      simpl; try discriminate.
    + exfalso. revert E. simpl. destruct (n =? 0)%Z; [discriminate |].
      destruct (set_of_list _); discriminate.
    + unfold loop_top, after_loop. destruct (playing st); simpl;
        [discriminate |].
      destruct (status _); discriminate.
  - destruct (play_step st line (rng (draws m))) as [out | st' out | e out];
      simpl; try discriminate.
    + unfold loop_top, after_loop. destruct (playing st); simpl;
        [discriminate |]. destruct (status _); discriminate.
    + unfold loop_top, after_loop.
      destruct (negb _); [| destruct (playing st')]; simpl; try discriminate;
        destruct (status _); discriminate.
  - destruct (negb _); simpl; [discriminate |].
    destruct (String.eqb (str_lower (strip line)) "n"); simpl;
      [intros _; right; apply orb_true_r | discriminate].
  - intros H. congruence.
Qed.

Lemma run_hangman_returned (word_list : list string)
      (int : string -> option Z) (rng : nat -> nat) (inputs : list string) :
  forall m,
    phase (fst (run_hangman word_list int rng m inputs)) = Returned ->
    phase m = Returned \/
    exists line, In line inputs /\ ends_program line = true.
Proof.
  induction inputs as [| line rest IH]; intros m H; simpl in H; [now left |].
  destruct (IH _ H) as [Hr | [l [Hin Hl]]].
  - apply hangman_step_returned in Hr as [Hr | Hr]; [now left |].
    right. exists line. split; [now left | exact Hr].
  - right. exists l. split; [now right | exact Hl].
Qed.

(** X22. [play_hangman] returns only when no word could be loaded, or
    after a line that is the quit keyword or a no: it never stops by
    itself in the middle of the game. *)
Theorem play_hangman_returns_on_request (int : string -> option Z)
        (file : option (list string)) (inputs : list string)
        (rng : nat -> nat) :
  phase (fst (play_hangman int file inputs rng)) = Returned ->
  load_words file = [] \/
  exists line, In line inputs /\ ends_program line = true.
Proof.
  unfold play_hangman. destruct (load_words file) as [| w ws]; [now left |].
  simpl. intros H. right.
  apply run_hangman_returned in H as [H | H]; [discriminate | exact H].
Qed.

Lemma play_hangman_returns_on_request_witness :
  phase (fst (play_hangman int_of_digits (Some ["dog"; "cat"])
                           ["7"; "x"; "Quit"; "3"] (fun _ => 0)))
    = Returned /\
  exists line,
    In line ["7"; "x"; "Quit"; "3"] /\ ends_program line = true.
Proof.
  split; [reflexivity |].
  destruct (play_hangman_returns_on_request
              int_of_digits (Some ["dog"; "cat"])
              ["7"; "x"; "Quit"; "3"] (fun _ => 0) eq_refl)
    as [H | H]; [discriminate H | exact H].
Defined.

Lemma play_loop_not_playing (st : Session) (inputs : list string)
      (rng : nat -> nat) (k : nat) :
  playing st = false -> play_loop st inputs rng k = finish st (rng k).
Proof. intros H. destruct inputs; simpl; now rewrite H. Qed.

Lemma finish_not_waiting (st : Session) (r : nat) :
  status (finish st r) <> AwaitingInput.
Proof.
  unfold finish. destruct (won st); simpl; [discriminate |].
  destruct (random_choice r (words st)); discriminate.
Qed.

Lemma after_loop_ends (st : Session) (rng : nat -> nat) (k : nat) :
  status (finish st (rng k)) = Won \/
  (exists w, status (finish st (rng k)) = Lost w) ->
  exists k',
    after_loop st rng k
    = (mkMachine AtReplay k', List.map InRound (output (finish st (rng k)))).
Proof.
  unfold after_loop. intros [-> | [w ->]]; eauto.
Qed.

Lemma skipn_length_app {A : Type} (l1 l2 : list A) :
  skipn (List.length l1) (l1 ++ l2) = l2.
Proof. induction l1 as [| a l1 IH]; simpl; auto. Qed.

(** Every pass prints the header first. *)
Lemma play_step_header (st : Session) (line : string) (r : nat) :
  (prompt_output st ++ after_header st (step_output (play_step st line r)))%list
  = step_output (play_step st line r).
Proof.
  assert (H : exists body,
             step_output (play_step st line r) = (prompt_output st ++ body)%list).
  { unfold play_step.
    destruct (negb _ || negb _); [simpl; eauto |].
    destruct (set_mem _ _); [simpl; eauto |].
    destruct (max_partition r _) as [h |]; [| simpl; eauto].
    destruct (negb (str_in "-" h)); simpl; rewrite <- !app_assoc; eauto. }
  destruct H as [body ->]. unfold after_header.
  now rewrite skipn_length_app.
Qed.

(** X23. The main loop inside the program is [play_loop], up to the moment
    the header of lines 89-95 is printed: the program prints it before it
    waits for a letter, [play_loop] when the letter is read. Counting the
    header the program printed on reaching the letter prompt: as long as
    [play_loop] waits for input, the program is at the letter prompt in the
    state [play_loop] reaches, has taken one random draw per accepted guess,
    and has printed the output of [play_loop] followed by the header of that
    state; and when [play_loop] ends the round as won or lost, the program
    has reached the replay prompt on a prefix of the input, having printed
    the output of [play_loop]. *)
Theorem round_in_program (word_list : list string) (int : string -> option Z)
        (rng : nat -> nat) (inputs : list string) :
  forall (st : Session) (k : nat),
    playing st = true ->
    (status (play_loop st inputs rng k) = AwaitingInput ->
     fst (run_hangman word_list int rng (mkMachine (AtLetter st) k) inputs)
     = mkMachine (AtLetter (final (play_loop st inputs rng k)))
                 (k + accepted_guesses (output (play_loop st inputs rng k))) /\
     (List.map InRound (prompt_output st)
      ++ snd (run_hangman word_list int rng (mkMachine (AtLetter st) k) inputs))%list
     = List.map InRound
         (output (play_loop st inputs rng k)
          ++ prompt_output (final (play_loop st inputs rng k)))) /\
    (status (play_loop st inputs rng k) = Won \/
     (exists w, status (play_loop st inputs rng k) = Lost w) ->
     exists used rest k',
       inputs = (used ++ rest)%list /\
       fst (run_hangman word_list int rng (mkMachine (AtLetter st) k) used)
       = mkMachine AtReplay k' /\
       (List.map InRound (prompt_output st)
        ++ snd (run_hangman word_list int rng (mkMachine (AtLetter st) k) used))%list
       = List.map InRound (output (play_loop st inputs rng k))).
Proof.
  induction inputs as [| line rest IH]; intros st k Hp.
  - cbn [play_loop run_hangman]. rewrite Hp. cbn [fst snd final output status].
    split.
    + intros _. now rewrite Nat.add_0_r, app_nil_r.
    + intros [H | [w H]]; discriminate.
  - pose proof (play_step_header st line (rng k)) as Hh.
    pose proof (play_step_count st line (rng k)) as Hn.
    cbn [play_loop]. rewrite Hp.
    assert (Hrun : forall used,
              run_hangman word_list int rng (mkMachine (AtLetter st) k)
                          (line :: used)
              = and_then
                  (snd (hangman_step word_list int rng
                                     (mkMachine (AtLetter st) k) line))
                  (run_hangman word_list int rng
                     (fst (hangman_step word_list int rng
                                        (mkMachine (AtLetter st) k) line))
                     used)) by reflexivity.
    assert (Hstep : hangman_step word_list int rng (mkMachine (AtLetter st) k) line
              = match play_step st line (rng k) with
                | Rejected out =>
                    and_then (List.map InRound (after_header st out))
                             (loop_top st rng k)
                | Crashed e out =>
                    (mkMachine (Raised e) (S k),
                     List.map InRound (after_header st out))
                | Accepted st' out =>
                    and_then (List.map InRound (after_header st out))
                             (if negb (str_in "-" (hint st'))
                              then after_loop st' rng (S k)
                              else loop_top st' rng (S k))
                end) by reflexivity.
    assert (Htop : loop_top st rng k
                   = (mkMachine (AtLetter st) k,
                      List.map InRound (prompt_output st)))
      by (unfold loop_top; now rewrite Hp).
    destruct (play_step st line (rng k)) as [out | st' out | e out] eqn:Es;
      cbn [step_output] in Hh;
      remember (after_header st out) as body eqn:Ebody; clear Ebody;
      subst out.
    + rewrite Htop in Hstep. unfold and_then in Hstep. cbn [fst snd] in Hstep.
      destruct (IH st k Hp) as [IH1 IH2]. split.
      * intros Hs. cbn [say status] in Hs. destruct (IH1 Hs) as [Hf Ho].
        rewrite Hrun, Hstep. unfold and_then. cbn [fst snd say final output].
        rewrite accepted_guesses_app, Hn. split; [exact Hf |].
        rewrite map_app in Ho.
        rewrite !map_app, <- !app_assoc. do 2 f_equal. exact Ho.
      * intros Hs. cbn [say status] in Hs.
        destruct (IH2 Hs) as (used & rest0 & k' & -> & Hf & Ho).
        exists (line :: used), rest0, k'. split; [reflexivity |].
        rewrite Hrun, Hstep. unfold and_then. cbn [fst snd say output].
        split; [exact Hf |].
        rewrite !map_app, <- !app_assoc. do 2 f_equal. exact Ho.
    + assert (Hend : (status (finish st' (rng (S k))) = Won \/
                      (exists w, status (finish st' (rng (S k))) = Lost w)) ->
                     (if negb (str_in "-" (hint st'))
                      then after_loop st' rng (S k)
                      else loop_top st' rng (S k)) = after_loop st' rng (S k) ->
                     exists used rest0 k',
                       line :: rest = (used ++ rest0)%list /\
                       fst (run_hangman word_list int rng
                                        (mkMachine (AtLetter st) k) used)
                       = mkMachine AtReplay k' /\
                       (List.map InRound (prompt_output st)
                        ++ snd (run_hangman word_list int rng
                                            (mkMachine (AtLetter st) k) used))%list
                       = List.map InRound
                           ((prompt_output st ++ body)
                            ++ output (finish st' (rng (S k))))).
      { intros Hs Ht.
        destruct (after_loop_ends st' rng (S k) Hs) as [k' Hk'].
        exists [line], rest, k'. split; [reflexivity |].
        rewrite Hrun, Hstep, Ht, Hk'. unfold and_then.
        cbn [fst snd run_hangman]. split; [reflexivity |].
        now rewrite !map_app, app_nil_r, <- !app_assoc. }
      destruct (negb (str_in "-" (hint st'))) eqn:Eb.
      * split.
        -- intros Hs. cbn [say status] in Hs.
           now apply finish_not_waiting in Hs.
        -- intros Hs. cbn [say status] in Hs. cbn [say output].
           now apply Hend.
      * destruct (playing st') eqn:Ep'.
        -- assert (Htop' : loop_top st' rng (S k)
                           = (mkMachine (AtLetter st') (S k),
                              List.map InRound (prompt_output st')))
             by (unfold loop_top; now rewrite Ep').
           rewrite Htop' in Hstep. unfold and_then in Hstep.
           cbn [fst snd] in Hstep.
           destruct (IH st' (S k) Ep') as [IH1 IH2]. split.
           ++ intros Hs. cbn [say status] in Hs. destruct (IH1 Hs) as [Hf Ho].
              rewrite Hrun, Hstep. unfold and_then.
              cbn [fst snd say final output].
              rewrite accepted_guesses_app, Hn. split.
              ** rewrite Hf. f_equal. lia.
              ** rewrite map_app in Ho.
                 rewrite !map_app, <- !app_assoc. do 2 f_equal. exact Ho.
           ++ intros Hs. cbn [say status] in Hs.
              destruct (IH2 Hs) as (used & rest0 & k' & -> & Hf & Ho).
              exists (line :: used), rest0, k'. split; [reflexivity |].
              rewrite Hrun, Hstep. unfold and_then. cbn [fst snd say output].
              split; [exact Hf |].
              rewrite !map_app, <- !app_assoc. do 2 f_equal. exact Ho.
        -- rewrite (play_loop_not_playing st' rest rng (S k) Ep'). split.
           ++ intros Hs. cbn [say status] in Hs.
              now apply finish_not_waiting in Hs.
           ++ intros Hs. cbn [say status] in Hs. cbn [say output].
              apply Hend; [exact Hs |]. unfold loop_top. now rewrite Ep'.
    + split; [discriminate | intros [H | [w H]]; discriminate].
Qed.

Lemma round_in_program_witness :
  let st := mkSession ["dog"; "cat"] [] 5 "---" false false in
  let pl := play_loop st ["z"; "zz"; "o"] (fun _ => 0) 0 in
  let pw := play_loop st ["o"; "d"; "g"; "y"] (fun _ => 0) 0 in
  playing st = true /\
  (status pl = AwaitingInput /\
   fst (run_hangman ["dog"; "cat"] int_of_digits (fun _ => 0)
                    (mkMachine (AtLetter st) 0) ["z"; "zz"; "o"])
   = mkMachine (AtLetter (mkSession ["dog"] ["z"; "o"] 4 "-o-" false false)) 2 /\
   (List.map InRound (prompt_output st)
    ++ snd (run_hangman ["dog"; "cat"] int_of_digits (fun _ => 0)
                        (mkMachine (AtLetter st) 0) ["z"; "zz"; "o"]))%list
   = List.map InRound (output pl ++ prompt_output (final pl))) /\
  (status pw = Won /\
   exists used rest k',
     ["o"; "d"; "g"; "y"] = (used ++ rest)%list /\
     fst (run_hangman ["dog"; "cat"] int_of_digits (fun _ => 0)
                      (mkMachine (AtLetter st) 0) used)
     = mkMachine AtReplay k' /\
     (List.map InRound (prompt_output st)
      ++ snd (run_hangman ["dog"; "cat"] int_of_digits (fun _ => 0)
                          (mkMachine (AtLetter st) 0) used))%list
     = List.map InRound (output pw)).
Proof.
  intros st pl pw. split; [reflexivity |]. split.
  - split; [reflexivity |].
    exact (proj1 (round_in_program ["dog"; "cat"] int_of_digits (fun _ => 0)
                                   ["z"; "zz"; "o"] st 0 eq_refl) eq_refl).
  - split; [reflexivity |].
    exact (proj2 (round_in_program ["dog"; "cat"] int_of_digits (fun _ => 0)
                                   ["o"; "d"; "g"; "y"] st 0 eq_refl)
                 (or_introl eq_refl)).
Defined.

(** ** What an accepted guess changes *)

(** X24. An accepted guess adds the lowercased letter, which was not yet
    guessed, to the guess set and keeps the earlier guesses, so the guess
    set has one member more; the new candidate set has no duplicates and is
    a subset of the old one, so it is no larger. *)
Theorem accepted_guess_shrinks_candidates (st : Session) (line : string)
        (r : nat) (st' : Session) (out : list Output) :
  play_step st line r = Accepted st' out ->
  (forall x, In x (guessed st') <-> x = guess_of line \/ In x (guessed st)) /\
  ~ In (guess_of line) (guessed st) /\
  List.length (guessed st') = S (List.length (guessed st)) /\
  NoDup (words st') /\
  (forall w, In w (words st') -> In w (words st)) /\
  List.length (words st') <= List.length (words st).
Proof.
  intros Hstep.
  destruct (play_step_words _ _ _ _ _ Hstep) as [_ Hw].
  apply play_step_accepted in Hstep.
  destruct Hstep as (_ & _ & Hg & Hsel & Hws & HG & _).
  destruct (selected_bucket _ _ _ _ Hsel) as (Hin & _ & _).
  rewrite <- Hws in Hin.
  destruct (PartInv_bucket _ _ _ _ (partition_inv _ _) Hin) as (_ & Hnd & _).
  assert (Hsub : forall w, In w (words st') -> In w (words st))
    by (intros w Hi; now apply Hw).
  split; [intros x; rewrite HG; apply set_add_In |].
  split; [now apply set_mem_not_In |].
  split; [rewrite HG; unfold set_add; rewrite Hg, length_app; simpl; lia |].
  split; [exact Hnd |]. split; [exact Hsub |].
  now apply NoDup_incl_length.
Qed.

Lemma accepted_guess_shrinks_candidates_witness :
  let st := mkSession ["bat"; "cat"; "hat"; "can"] ["z"] 4 "---" false false in
  let st' := mkSession ["bat"; "cat"; "hat"] ["z"; "t"] 4 "--t" false false in
  play_step st "T" 5 =
    Accepted st' [PrintRemaining 4; PrintGuessed ["z"]; PrintHint "---";
                  PrintHit "t"] /\
  (In "t" (guessed st') <-> "t" = guess_of "T" \/ In "t" (guessed st)) /\
  List.length (guessed st') = S (List.length (guessed st)) /\
  List.length (words st') <= List.length (words st).
Proof.
  intros st st'. split; [reflexivity |].
  destruct (accepted_guess_shrinks_candidates st "T" 5 st'
              [PrintRemaining 4; PrintGuessed ["z"]; PrintHint "---";
               PrintHit "t"] eq_refl) as (Hg & _ & Hn & _ & _ & Hlen).
  split; [apply Hg |]. now split.
Defined.

(** X25. In a state whose candidates are all masked to the current
    pattern, the pattern after an accepted guess is the old pattern with
    some placeholders turned into the guessed letter: every position either
    is as before, or was a placeholder and now shows that letter. *)
Theorem new_pattern_extends_old (st : Session) (line : string) (r : nat)
        (st' : Session) (out : list Output) :
  Consistent st -> play_step st line r = Accepted st' out ->
  String.length (hint st') = String.length (hint st) /\
  forall i,
    String.get i (hint st') = String.get i (hint st) \/
    (String.get i (hint st) = Some PLACEHOLDER /\
     option_map chr (String.get i (hint st')) = Some (guess_of line)).
Proof.
  intros [_ Hc] Hstep.
  destruct (play_step_words _ _ _ _ _ Hstep) as [Hne Hw].
  apply play_step_accepted in Hstep.
  destruct Hstep as (Ha & Hl & _ & _ & _ & HG & _).
  destruct (single_letter _ Ha Hl) as [c [Ec _]].
  destruct (words st') as [| w ws]; [congruence |].
  destruct (Hw w (or_introl eq_refl)) as [Hin Hnew].
  rewrite <- Hnew, <- (Hc w Hin), HG, Ec.
  split; [now rewrite !mask_word_length |].
  intros i. rewrite !mask_word_get.
  destruct (String.get i w) as [d |]; simpl; [| now left].
  unfold mask_char. rewrite set_mem_add, chr_eqb.
  destruct (set_mem (chr d) (guessed st)); [rewrite orb_true_r; now left |].
  destruct (Ascii.eqb_spec d c) as [-> | Hdc]; simpl; [right | left]; auto.
Qed.

Lemma new_pattern_extends_old_witness :
  let st := mkSession ["bat"; "cat"] ["t"] 5 "--t" false false in
  let st' := mkSession ["bat"; "cat"] ["t"; "a"] 5 "-at" false false in
  Consistent st /\
  play_step st "a" 0 =
    Accepted st' [PrintRemaining 5; PrintGuessed ["t"]; PrintHint "--t";
                  PrintHit "a"] /\
  String.length (hint st') = String.length (hint st).
Proof.
  intros st st'.
  assert (Hc : Consistent st).
  { split; [discriminate |]. intros w [<- | [<- | []]]; reflexivity. }
  split; [exact Hc |]. split; [reflexivity |].
  exact (proj1 (new_pattern_extends_old st "a" 0 st'
                  [PrintRemaining 5; PrintGuessed ["t"]; PrintHint "--t";
                   PrintHit "a"] Hc eq_refl)).
Defined.

(** ** Partitioner: the bucket of a pattern, as a set *)

(** X4. The bucket of a pattern [p] in [partition C g] holds exactly the
    words of [C] that [mask_word] maps to [p], each once: as many as [C] has
    of them when [C] has no duplicates, and none when no word of [C] has the
    pattern [p]. *)
Theorem partition_lookup (C g : list string) (p : string) :
  (forall w, In w (dict_get (partition C g) p) <->
             In w C /\ mask_word w g = p) /\
  NoDup (dict_get (partition C g) p) /\
  (NoDup C ->
   List.length (dict_get (partition C g) p)
   = List.length (List.filter (fun w => String.eqb (mask_word w g) p) C)) /\
  ((forall w, In w C -> mask_word w g <> p) ->
   dict_get (partition C g) p = []).
Proof.
  assert (Hget : dict_get (partition C g) p
                 = set_of_list
                     (List.filter (fun w => String.eqb (mask_word w g) p) C))
    by (unfold partition; now rewrite dict_get_fold).
  assert (Hin : forall w, In w (dict_get (partition C g) p) <->
                          In w C /\ mask_word w g = p).
  { intros w. now rewrite Hget, set_of_list_In, filter_In, String.eqb_eq. }
  split; [exact Hin |].
  split; [rewrite Hget; apply set_of_list_NoDup |].
  split.
  - intros HC. rewrite Hget, set_of_list_id; [reflexivity |].
    now apply NoDup_filter.
  - intros Hnone. destruct (dict_get (partition C g) p) as [| w b] eqn:E;
      [reflexivity |].
    destruct (proj1 (Hin w) (or_introl eq_refl)) as [Hw Hm].
    now elim (Hnone w Hw).
Qed.

Lemma partition_lookup_witness :
  (In "hat" (dict_get (partition ["bat"; "can"; "hat"] ["t"]) "--t") <->
   In "hat" ["bat"; "can"; "hat"] /\ mask_word "hat" ["t"] = "--t") /\
  List.length (dict_get (partition ["bat"; "can"; "hat"] ["t"]) "--t") = 2 /\
  dict_get (partition ["bat"; "can"; "hat"] ["t"]) "t--" = [].
Proof.
  destruct (partition_lookup ["bat"; "can"; "hat"] ["t"] "--t")
    as (Hin & _ & Hlen & _).
  split; [apply Hin |]. split.
  - rewrite Hlen; [reflexivity |].
    repeat constructor; simpl; intuition discriminate.
  - apply (proj2 (proj2 (proj2 (partition_lookup ["bat"; "can"; "hat"] ["t"]
                                                 "t--")))).
    intros w [<- | [<- | [<- | []]]]; discriminate.
Defined.
